(** * Pdf2Bionic: the emphasis transform, the assembler, the chunker and the
    render/merge orchestrator, embedded from the Python sources.

    Conventions of the embedding.
    - A Python [str] is a list of Unicode code points ([char := N]); a
      program literal is written [lit "..."].
    - Python's Unicode tables ([\w] of [re], the white space of
      [str.strip]) are not part of the repository: they are the fields of
      the class [CharClass], and every general theorem holds for every
      table.  The closed examples use [ascii_tables].
    - A finite Python [float] is the rational it stands for ([Q]); every
      float operation rounds its exact result to binary64, to the nearest
      value with ties to even ([round64]); [int(x)] truncates towards
      zero.  The infinities, nan and the overflow of an operation are not
      values of this model: the products of the code stay below the
      length of a word for a ratio in (0,1] and below the dimensions of
      an image.
    - External libraries (lxml, PIL, WeasyPrint, PyMuPDF, multiprocessing)
      are parameters of the sections that call them. *)

From Stdlib Require Import ZArith QArith Qround Qabs Qpower String Ascii List Lia Lqa Permutation.
From Stdlib Require Floats.SpecFloat.
From stdpp Require Import gmap strings list fin_maps.

Set Default Proof Using "Type".
Local Open Scope Z_scope.
Local Open Scope nat_scope.
Local Open Scope list_scope.

(** ** Text *)

Definition char := N.
Abbreviation str := (list char).

Definition lit (s : string) : str :=
  map N_of_ascii (list_ascii_of_string s).

(** The double quote, as a one-character literal. *)
Definition dq : str := [34%N].

Definition chr_lt : char := 60%N.   (* '<' *)
Definition chr_gt : char := 62%N.   (* '>' *)

(** Python slices [s[a:b]] and [s[a:]] for [0 <= a], [0 <= b]. *)
Definition slice (s : str) (a b : nat) : str := take (b - a) (drop a s).

(** The two Unicode predicates the code relies on:
    [isalnum c] is CPython's [Py_UNICODE_ISALNUM], so that [\w] is
    [isalnum c || c == '_']; [isspace c] is [Py_UNICODE_ISSPACE], the
    characters [str.strip()] removes. *)
Class CharClass := {
  isalnum : char -> bool;
  isspace : char -> bool
}.

Definition ascii_tables : CharClass := {|
  isalnum c := ((48 <=? c) && (c <=? 57) || (65 <=? c) && (c <=? 90)
                || (97 <=? c) && (c <=? 122))%N;
  isspace c := ((9 <=? c) && (c <=? 13) || (28 <=? c) && (c <=? 32))%N
|}.

(** [int(x)] on a float. *)
Definition py_int (x : Q) : Z := Z.quot (Qnum x) (Zpos (Qden x)).

(** ** Floats

    binary64: 53 significant bits, least normal exponent -1022, round to
    nearest, ties to even. *)
Definition pow2 (e : Z) : Q := Qpower 2 e.

(** The exponent of [x]: [2^e <= |x| < 2^(e+1)]. *)
Definition ilog2 (x : Q) : Z :=
  let e := (Z.log2 (Z.abs (Qnum x)) - Z.log2 (Zpos (Qden x)))%Z in
  if Qle_bool (pow2 e) (Qabs x) then e else (e - 1)%Z.

(** The unit in the last place at [x]; below [2^-1022] the spacing is
    that of the subnormal numbers. *)
Definition ulp (x : Q) : Q := pow2 (Z.max (ilog2 x) (-1022) - 52).

Definition round_half_even (t : Q) : Z :=
  let f := Qfloor t in
  match Qcompare (t - inject_Z f) (1 # 2) with
  | Lt => f
  | Gt => (f + 1)%Z
  | Eq => if Z.even f then f else (f + 1)%Z
  end.

(** The float nearest to [x]. *)
Definition round64 (x : Q) : Q :=
  Qred (inject_Z (round_half_even (x / ulp x)) * ulp x).

(** [x * y], [x / y] and [float(n)]. *)
Definition fmul (x y : Q) : Q := round64 (x * y).
Definition fdiv (x y : Q) : Q := round64 (x / y).
Definition float_of_int (n : Z) : Q := round64 (inject_Z n).

(** The rationals that are floats. *)
Definition is_float (x : Q) : Prop := (round64 x == x)%Q.

(** The same operations in the Standard Library's specification of IEEE
    754 ([SpecFloat], at precision 53 and maximal exponent 1024), and the
    rational a finite float of that specification stands for. *)
Definition b64_of_Z (n : Z) : SpecFloat.spec_float :=
  SpecFloat.binary_normalize 53 1024 n 0 false.
Definition b64_mul : SpecFloat.spec_float -> SpecFloat.spec_float -> SpecFloat.spec_float :=
  SpecFloat.SFmul 53 1024.
Definition b64_div : SpecFloat.spec_float -> SpecFloat.spec_float -> SpecFloat.spec_float :=
  SpecFloat.SFdiv 53 1024.

Definition b64_value (f : SpecFloat.spec_float) : option Q :=
  match f with
  | SpecFloat.S754_zero _ => Some 0%Q
  | SpecFloat.S754_finite s m e =>
      Some (Qred (inject_Z (if s then Zneg m else Zpos m) * pow2 e))
  | _ => None
  end.

Module Processor.
Section Processor.
Context {U : CharClass}.

Definition is_word_char (c : char) : bool := isalnum c || (c =? 95)%N.

Definition prefix_open : str := lit "<span class=" ++ dq ++ lit "bionic-prefix" ++ dq ++ lit ">".
Definition rest_open : str := lit "<span class=" ++ dq ++ lit "bionic-rest" ++ dq ++ lit ">".
Definition span_close : str := lit "</span>".

(** [k = max(1, int(len(word) * bold_ratio))]: the length is converted
    to a float and the product is rounded before [int] truncates it. *)
Definition split_point (word : str) (bold_ratio : Q) : nat :=
  Z.to_nat (Z.max 1 (py_int (fmul (float_of_int (Z.of_nat (length word))) bold_ratio))).

Definition wrap_word (word : str) (bold_ratio : Q) : str :=
  if length word =? 1 then
    prefix_open ++ word ++ span_close
  else
    let k := split_point word bold_ratio in
    let left := take k word in
    let right := drop k word in
    prefix_open ++ left ++ span_close ++ rest_open ++ right ++ span_close.

(** [re.finditer(r"(\w+)", text)]: the spans [(start, end)] of the maximal
    runs of word characters, left to right.  [pos] is the index of the
    head of [s]; [opened] is the start of the run being read, if any. *)
Fixpoint scan_words (s : str) (pos : nat) (opened : option nat) : list (nat * nat) :=
  match s with
  | [] => match opened with Some st => [(st, pos)] | None => [] end
  | c :: s' =>
      if is_word_char c then
        scan_words s' (S pos) (Some (match opened with Some st => st | None => pos end))
      else
        match opened with
        | Some st => (st, pos) :: scan_words s' (S pos) None
        | None => scan_words s' (S pos) None
        end
  end.

Definition finditer_words (text : str) : list (nat * nat) := scan_words text 0 None.

(** [text.strip()] *)
Fixpoint lstrip (s : str) : str :=
  match s with
  | c :: s' => if isspace c then lstrip s' else s
  | [] => []
  end.

Definition strip (s : str) : str := reverse (lstrip (reverse (lstrip s))).

(** The body of the [for m in re.finditer(...)] loop, threaded over the
    matches; the state is [(last_index, new_html)]. *)
Fixpoint word_loop (text : str) (bold_ratio : Q) (ms : list (nat * nat))
    (last_index : nat) (new_html : list str) : nat * list str :=
  match ms with
  | [] => (last_index, new_html)
  | (start, end_) :: ms' =>
      let word := slice text start end_ in
      let new_html :=
        if last_index <? start then new_html ++ [slice text last_index start]
        else new_html in
      let new_html := new_html ++ [wrap_word word bold_ratio] in
      word_loop text bold_ratio ms' end_ new_html
  end.

Definition process_text_node (text : str) (bold_ratio : Q) : option str :=
  match strip text with
  | [] => None
  | _ :: _ =>
      let '(last_index, new_html) :=
        word_loop text bold_ratio (finditer_words text) 0 [] in
      let new_html :=
        if last_index <? length text then new_html ++ [drop last_index text]
        else new_html in
      Some (concat new_html)
  end.

End Processor.
End Processor.

(** ** Logging

    [logging.getLogger("bionic_reader")]: the records emitted so far, oldest
    first.  A record is its level, the fixed part of its message and the
    value formatted into it. *)
Inductive level := DEBUG | INFO | WARNING | ERROR.
Definition log_record : Type := level * string * string.

(** ** lxml elements

    An element as lxml keeps it: tag, attributes, the text before the first
    child, the children, and the text that follows the element inside its
    parent ([tail]).  An absent text ([None]) is the empty string. *)
#[warnings="-register-all"]
Inductive element :=
  Element (tag : string) (attrib : list (string * str)) (text : str)
          (children : list element) (tail : str).

Definition el_tag (e : element) : string := let 'Element t _ _ _ _ := e in t.
Definition el_attrib (e : element) : list (string * str) := let 'Element _ a _ _ _ := e in a.
Definition el_text (e : element) : str := let 'Element _ _ t _ _ := e in t.
Definition el_children (e : element) : list element := let 'Element _ _ _ c _ := e in c.
Definition el_tail (e : element) : str := let 'Element _ _ _ _ t := e in t.

(** [e.get(key)] *)
Fixpoint attr_get (key : string) (a : list (string * str)) : option str :=
  match a with
  | [] => None
  | (k, v) :: a' => if String.eqb k key then Some v else attr_get key a'
  end.

(** [e.set(key, value)] *)
Fixpoint attr_set (key : string) (value : str) (a : list (string * str)) : list (string * str) :=
  match a with
  | [] => [(key, value)]
  | (k, v) :: a' =>
      if String.eqb k key then (k, value) :: a' else (k, v) :: attr_set key value a'
  end.

Definition el_set (key : string) (value : str) (e : element) : element :=
  let 'Element t a x c l := e in Element t (attr_set key value a) x c l.

(** [parent.append(child)] *)
Definition el_append (child : element) (parent : element) : element :=
  let 'Element t a x c l := parent in Element t a x (c ++ [child]) l.

(** [e.text_content()]: the text of the element and of its descendants, in
    document order. *)
Fixpoint text_content (e : element) : str :=
  let 'Element _ _ x c _ := e in
  x ++ concat (map (fun ch => text_content ch ++ el_tail ch) c).

(** [sep.join(parts)] *)
Fixpoint join (sep : str) (parts : list str) : str :=
  match parts with
  | [] => []
  | [x] => x
  | x :: rest => x ++ sep ++ join sep rest
  end.

(** ** The document as python-docx presents it *)

Inductive alignment := LEFT | CENTER | RIGHT | JUSTIFY.

(** A [w:drawing] of a run: the [r:embed] attribute of its [a:blip], when
    there is a blip and it has the attribute, and the offsets of a floating
    anchor, when it has one. *)
Record drawing := {
  blip_embed : option (option string);
  anchor_offset : option (Z * Z)
}.

Record run := {
  run_text : str;
  run_bold : bool;
  run_italic : bool;
  run_underline : bool;
  run_font_size : option Q;        (* [run.font.size.pt], when a size is set *)
  run_drawings : list drawing;
  run_breaks : nat                 (* number of [w:br] below the run *)
}.

Record paragraph := {
  par_alignment : option alignment;
  par_runs : list run
}.

(** rows, cells of a row, paragraphs of a cell *)
Record table := { tbl_rows : list (list (list paragraph)) }.

Inductive body_element :=
  | BodyParagraph (p : paragraph)
  | BodyTable (t : table)
  | BodyOther.

(** A relationship of the document part. *)
Record relationship := {
  reltype : string;
  rId : string;
  target_blob : list Byte.byte
}.

Record document := {
  doc_body : list body_element;
  doc_rels : list relationship         (* [doc.part.rels.values()] *)
}.

(** ** image_handler.py *)

(** PIL and base64, as far as the code calls them.  An [image] is what
    PIL holds of a decoded picture, its pixels included; the code reads
    its mode, whether ['transparency'] is in [image.info], and its size.
    [image_open] is [Image.open(io.BytesIO(data))], [image_convert] is
    [image.convert(mode)], [image_resize] is
    [image.resize(new_size, Image.LANCZOS)] and [image_save] is the
    content of the buffer after [image.save(buf, format=..., ...)]; each
    answers [None] when the call raises. *)
Class Pil := {
  image : Type;
  img_mode : image -> string;
  img_transparency : image -> bool;
  img_size : image -> Z * Z;
  image_open : list Byte.byte -> option image;
  image_convert : image -> string -> option image;
  image_resize : image -> Z * Z -> option image;
  image_save : image -> string -> option (list Byte.byte);
  b64encode : list Byte.byte -> str
}.

Module ImageHandler.
Section ImageHandler.
Context {P : Pil}.

Definition MAX_IMAGE_WIDTH : Z := 1200.
Definition IMAGE_JPEG_QUALITY : Z := 75.

(** Lines "Resize if too large": [ratio = MAX_IMAGE_WIDTH / float(width)]
    and [new_size = (int(width * ratio), int(height * ratio))]. *)
Definition new_size (width height : Z) : Z * Z :=
  let ratio := fdiv (inject_Z MAX_IMAGE_WIDTH) (float_of_int width) in
  (py_int (fmul (float_of_int width) ratio), py_int (fmul (float_of_int height) ratio)).

(** The body of the [try]: [None] when one of its calls raises. *)
Definition encode (image_data : list Byte.byte) : option str :=
  im ← image_open image_data;
  '(im, format_type) ←
    (if String.eqb (img_mode im) "RGBA" || String.eqb (img_mode im) "LA"
        || (String.eqb (img_mode im) "P" && img_transparency im)
     then Some (im, "PNG"%string)
     else im ← image_convert im "RGB"; Some (im, "JPEG"%string));
  let '(width, height) := img_size im in
  im ← (if (MAX_IMAGE_WIDTH <? width)%Z
        then image_resize im (new_size width height)
        else Some im);
  let mime_type :=
    if String.eqb format_type "JPEG" then lit "image/jpeg" else lit "image/png" in
  final_data ← image_save im format_type;
  let encoded := b64encode final_data in
  Some (lit "data:" ++ mime_type ++ lit ";base64," ++ encoded).

Definition process_single_image (image_data : list Byte.byte) (rel_id : string)
    : (string * option str) * list log_record :=
  match encode image_data with
  | Some data_url => ((rel_id, Some data_url), [])
  | None => ((rel_id, None), [(WARNING, "Failed to process image", rel_id)])
  end.

(** ["image" in rel.reltype] *)
Definition is_image_rel (rel : relationship) : bool :=
  match String.index 0 "image" (reltype rel) with Some _ => true | None => false end.

(** The futures are read in submission order; a result is stored only if
    its data URL is truthy. *)
Fixpoint collect (tasks : list (list Byte.byte * string)) (results : gmap string str)
    : gmap string str * list log_record :=
  match tasks with
  | [] => (results, [])
  | (blob, rid) :: tasks' =>
      let '((rid, data_url), lg) := process_single_image blob rid in
      let results :=
        match data_url with
        | Some (c :: u) => <[rid := c :: u]> results
        | _ => results
        end in
      let '(results, lg') := collect tasks' results in
      (results, lg ++ lg')
  end.

Definition extract_images_from_doc (doc : document) : gmap string str * list log_record :=
  let tasks :=
    map (fun rel => (target_blob rel, rId rel)) (filter (fun rel => is_image_rel rel = true) (doc_rels doc)) in
  match tasks with
  | [] => (∅, [(DEBUG, "Extracting images from DOCX...", ""%string)])
  | _ =>
      let '(results, lg) := collect tasks ∅ in
      (results,
       [(DEBUG, "Extracting images from DOCX...", ""%string)] ++ lg
       ++ [(INFO, "Extracted and processed images.", ""%string)])
  end.

(** [get_image_position]: the offsets of the anchor in inches. *)
Definition get_image_position (d : drawing) : option (Q * Q) :=
  match anchor_offset d with
  | Some (x, y) => Some (fdiv (inject_Z x) 914400, fdiv (inject_Z y) 914400)
  | None => None
  end.

End ImageHandler.
End ImageHandler.

(** ** converter.py *)

(** lxml's parser and serialiser and Python's float formatting, as far as
    the code calls them.  [html_fromstring s] is [html.fromstring(s)],
    [None] when it raises; [html_tostring e] is
    [html.tostring(e, encoding='unicode')]; [format_float x] is the text an
    f-string gives for the float [x]. *)
Class Lxml := {
  html_fromstring : str -> option element;
  html_tostring : element -> str;
  format_float : Q -> str
}.

Module Converter.
Section Converter.
Context {U : CharClass} {P : Pil} {X : Lxml}.
Import Processor ImageHandler.

Definition CLASS (cls : string) : list (string * str) := [("class"%string, lit cls)].

Definition E_DIV (attrs : list (string * str)) : element := Element "div" attrs [] [] [].
Definition E_SPAN (text : str) : element := Element "span" [] text [] [].
Definition E_IMG (src alt : str) : element :=
  Element "img" [("src"%string, src); ("alt"%string, alt)] [] [] [].
Definition E_BR : element := Element "br" [] [] [] [].

Definition run_has_line_break (r : run) : bool := 0 <? run_breaks r.

(** "Handle images": the containers appended for the drawings of a run. *)
Definition image_containers (images_dict : gmap string str) (r : run) : list element :=
  flat_map
    (fun d =>
       match blip_embed d with
       | Some (Some image_rel_id) =>
           if negb (String.eqb image_rel_id "") then
             match images_dict !! image_rel_id with
             | Some img_src =>
                 let position := get_image_position d in   (* read, then left unused *)
                 let img_tag := E_IMG img_src (lit "Document Image") in
                 let container := el_append img_tag (E_DIV (CLASS "image-container")) in
                 [container]
             | None => []
             end
           else []
       | _ => []
       end)
    (run_drawings r).

(** "Build style string" *)
Definition run_styles (r : run) : list str :=
  (if run_bold r then [lit "font-weight: bold"] else [])
  ++ (if run_italic r then [lit "font-style: italic"] else [])
  ++ (if run_underline r then [lit "text-decoration: underline"] else [])
  ++ (match run_font_size r with
      | Some pt => if Qeq_bool pt 0 then []
                   else [lit "font-size: " ++ format_float pt ++ lit "pt"]
      | None => []
      end).

(** [if styles: span.set("style", "; ".join(styles))] *)
Definition with_styles (styles : list str) (span : element) : element :=
  match styles with
  | [] => span
  | _ => el_set "style" (join (lit "; ") styles) span
  end.

(** The two [for child in dummy: container_span.append(child)] loops
    around [if dummy.text: container_span.text = dummy.text].  The first
    loop moves every child of [dummy], with its tail, under
    [container_span] (an lxml element has one parent), so the second
    loop finds [dummy] without children. *)
Definition adopt (dummy container_span : element) : element :=
  let 'Element t a x c l := container_span in
  let c := c ++ el_children dummy in
  let x := match el_text dummy with [] => x | _ => el_text dummy end in
  Element t a x c l.

(** "Handle Text": the elements appended for the text of a run. *)
Definition text_elements (r : run) (bold_ratio : Q) : list element :=
  let text := run_text r in
  match text with
  | [] => []
  | _ :: _ =>
      let styles := run_styles r in
      let fallback := with_styles styles (E_SPAN text) in
      match process_text_node text bold_ratio with
      | None | Some [] => [fallback]
      | Some bionic_html =>
          match html_fromstring (lit "<div>" ++ bionic_html ++ lit "</div>") with
          | Some dummy =>
              let container_span := with_styles styles (E_SPAN []) in
              [adopt dummy container_span]
          | None => [fallback]
          end
      end
  end.

Definition run_elements (images_dict : gmap string str) (bold_ratio : Q) (r : run)
    : list element :=
  image_containers images_dict r
  ++ text_elements r bold_ratio
  ++ (if run_has_line_break r then [E_BR] else []).

Definition build_paragraph_element (par : paragraph) (images_dict : gmap string str)
    (bold_ratio : Q) : element :=
  let style_align :=
    match par_alignment par with
    | Some CENTER => lit "text-align: center;"
    | Some RIGHT => lit "text-align: right;"
    | _ => []
    end in
  let p_div := E_DIV (CLASS "paragraph") in
  let p_div := match style_align with [] => p_div | _ => el_set "style" style_align p_div end in
  fold_left (fun p_div r => fold_left (fun p e => el_append e p) (run_elements images_dict bold_ratio r) p_div)
            (par_runs par) p_div.

Definition process_table (t : table) (images_dict : gmap string str) (bold_ratio : Q) : element :=
  Element "table" [] []
    (map (fun row =>
            Element "tr" [] []
              (map (fun cell =>
                      Element "td" [] []
                        (map (fun par => build_paragraph_element par images_dict bold_ratio) cell)
                        [])
                   row)
              [])
         (tbl_rows t))
    [].

(** The walk over [doc.element.body]. *)
Definition body_content (doc : document) (images_dict : gmap string str) (bold_ratio : Q)
    : list element :=
  flat_map
    (fun el =>
       match el with
       | BodyParagraph par => [build_paragraph_element par images_dict bold_ratio]
       | BodyTable t => [process_table t images_dict bold_ratio]
       | BodyOther => []
       end)
    (doc_body doc).

Definition CHUNK_SIZE : nat := 100.

Definition chunk_html (head tail : str) (current_chunk_elements : list element) : str :=
  fold_left (fun chunk_html e => chunk_html ++ html_tostring e) current_chunk_elements head
  ++ tail.

(** "Chunk the content": the [for i, elem in enumerate(body_content)] loop;
    the state is [(current_chunk_elements, chunks)]. *)
Fixpoint chunk_loop (head tail : str) (body : list element)
    (current_chunk_elements : list element) (chunks : list str)
    : list element * list str :=
  match body with
  | [] => (current_chunk_elements, chunks)
  | elem :: body' =>
      let current_chunk_elements := current_chunk_elements ++ [elem] in
      if CHUNK_SIZE <=? length current_chunk_elements then
        chunk_loop head tail body' []
          (chunks ++ [chunk_html head tail current_chunk_elements])
      else chunk_loop head tail body' current_chunk_elements chunks
  end.

Definition make_chunks (head tail : str) (body : list element) : list str :=
  let '(current_chunk_elements, chunks) := chunk_loop head tail body [] [] in
  let chunks :=
    match current_chunk_elements with
    | [] => chunks
    | _ => chunks ++ [chunk_html head tail current_chunk_elements]
    end in
  match chunks with
  | [] => [head ++ tail]
  | _ => chunks
  end.

(** [pdf_to_html] from the parsed document on; [head] and [tail] are the
    formatted [HTML_HEAD_TEMPLATE] and [HTML_TAIL]. *)
Definition pdf_to_html (doc : document) (head tail : str) (bold_ratio : Q)
    : list str * list log_record :=
  let '(images_dict, lg) := extract_images_from_doc doc in
  (make_chunks head tail (body_content doc images_dict bold_ratio), lg).

End Converter.
End Converter.

(** ** renderer.py and cli.py *)

(** A page of a PDF and the content of a file.  [Blank] is the empty file
    [mkstemp] creates, [Truncated] a file whose writing was interrupted,
    [Bytes] any content that is not a readable PDF. *)
Definition page : Type := nat.

Inductive content :=
  | Blank
  | Pdf (pages : list page)
  | Truncated
  | Bytes.

(** The part of the world the orchestrator acts on: the temporary
    directory (files named by [mkstemp], identified by a number), the files
    named by the caller (input and destination paths), the log of the
    [bionic_reader] logger and the standard output. *)
Record world := {
  tmp_dir : gmap nat content;
  user_files : gmap string content;
  log : list log_record;
  stdout : list string
}.

Definition set_tmp_dir (f : gmap nat content -> gmap nat content) (w : world) : world :=
  {| tmp_dir := f (tmp_dir w); user_files := user_files w; log := log w; stdout := stdout w |}.
Definition set_user_files (f : gmap string content -> gmap string content) (w : world) : world :=
  {| tmp_dir := tmp_dir w; user_files := f (user_files w); log := log w; stdout := stdout w |}.
Definition add_log (r : list log_record) (w : world) : world :=
  {| tmp_dir := tmp_dir w; user_files := user_files w; log := log w ++ r; stdout := stdout w |}.
Definition add_stdout (line : string) (w : world) : world :=
  {| tmp_dir := tmp_dir w; user_files := user_files w; log := log w; stdout := stdout w ++ [line] |}.

Inductive save_outcome :=
  | Saved                 (* the file holds the document *)
  | Refused               (* raised before anything was written *)
  | Interrupted.          (* raised after the file was opened for writing *)

(** The collaborators of the orchestrator.
    - [load_document p]: [pdf2docx.Converter(p).convert(...)] followed by
      [docx.Document(...)]; [None] when one of them raises.
    - [html_head font doc]: [HTML_HEAD_TEMPLATE] formatted with the font
      family and the dominant font size of the document; [html_tail] is
      [HTML_TAIL].
    - [write_pdf html]: what [HTML(string=html).write_pdf(path)] leaves in
      the file; [None] when it raises (the file is then as [mkstemp] made it).
    - [fitz_save pages]: how [doc.save(path)] ends for a document of these
      pages.
    - [default_output p]: [os.path.splitext(p)[0] + "_bionic.pdf"]. *)
Class Collaborators := {
  load_document : string -> option document;
  html_head : str -> document -> str;
  html_tail : str;
  write_pdf : str -> option content;
  fitz_save : list page -> save_outcome;
  default_output : string -> string
}.

Inductive exn :=
  | ChunkRenderFailed     (* "One or more chunks failed to render." *)
  | FitzOpenError         (* raised by [fitz.open(path)] *)
  | FitzSaveError         (* raised by [doc.save(path)] *)
  | ConversionError.      (* raised while converting or parsing the input *)

Inductive result (A : Type) :=
  | Ok (a : A)
  | Raise (e : exn).
Arguments Ok {A} a.
Arguments Raise {A} e.

(** Computations that read and change the world and may raise. *)
Definition M (A : Type) : Type := world -> result A * world.

Definition ret {A} (a : A) : M A := fun w => (Ok a, w).
Definition raise {A} (e : exn) : M A := fun w => (Raise e, w).
Definition bind {A B} (m : M A) (k : A -> M B) : M B :=
  fun w => match m w with
           | (Ok a, w') => k a w'
           | (Raise e, w') => (Raise e, w')
           end.
(** [try: m except Exception as e: h e] *)
Definition try_except {A} (m : M A) (h : exn -> M A) : M A :=
  fun w => match m w with
           | (Ok a, w') => (Ok a, w')
           | (Raise e, w') => h e w'
           end.
(** [try: m finally: f], for a [f] that does not raise. *)
Definition finally {A} (m : M A) (f : world -> world) : M A :=
  fun w => let '(r, w') := m w in (r, f w').
Definition modify (f : world -> world) : M unit := fun w => (Ok tt, f w).
Definition logger (lv : level) (msg : string) : M unit :=
  modify (add_log [(lv, msg, ""%string)]).

Declare Scope M_scope.
Delimit Scope M_scope with M.
Notation "x <- m ;; k" := (bind m (fun x => k))
  (at level 100, m at next level, right associativity) : M_scope.
Notation "m ;;; k" := (bind m (fun _ => k))
  (at level 100, right associativity) : M_scope.

Module Renderer.
Section Renderer.
Context {C : Collaborators}.
Local Open Scope M_scope.

(** [tempfile.mkstemp(suffix=".pdf")] followed by [os.close(fd)]: a new,
    empty file under a name that was not in use. *)
Definition mkstemp (w : world) : nat * world :=
  let temp_path := fresh (dom (tmp_dir w)) in
  (temp_path, set_tmp_dir (insert temp_path Blank) w).

(** The worker.  It never raises: a failure is printed and answered by
    [None]. *)
Definition render_chunk (html_content : str) (w : world) : option nat * world :=
  let '(temp_path, w) := mkstemp w in
  match write_pdf html_content with
  | Some c => (Some temp_path, set_tmp_dir (insert temp_path c) w)
  | None => (None, add_stdout "Error in worker" w)
  end.

(** [pool.map(render_chunk, html_chunks)].  The workers finish in the
    order [order] (a permutation of the indices); the result of the task
    of index [i] is stored at index [i] of the list the call returns. *)
Definition pool_step (html_chunks : list str) (st : list (option nat) * world) (i : nat)
    : list (option nat) * world :=
  let '(slots, w) := st in
  match html_chunks !! i with
  | Some html_content =>
      let '(r, w) := render_chunk html_content w in (<[i := r]> slots, w)
  | None => (slots, w)
  end.

Definition pool_map (order : list nat) (html_chunks : list str) (w : world)
    : list (option nat) * world :=
  fold_left (pool_step html_chunks) order (replicate (length html_chunks) None, w).

(** [fitz.open(temp_pdf)] *)
Definition fitz_open (temp_pdf : option nat) : M (list page) :=
  fun w => match temp_pdf with
           | Some path =>
               match tmp_dir w !! path with
               | Some (Pdf pages) => (Ok pages, w)
               | _ => (Raise FitzOpenError, w)
               end
           | None => (Raise FitzOpenError, w)
           end.

(** [try: os.remove(temp_pdf) except OSError: pass] *)
Definition os_remove (temp_pdf : option nat) : M unit :=
  modify (fun w => match temp_pdf with
                   | Some path => set_tmp_dir (delete path) w
                   | None => w
                   end).

(** [doc.save(output_path)]: written to the path it is given. *)
Definition doc_save (doc : list page) (output_path : string) : M unit :=
  fun w => match fitz_save doc with
           | Saved => (Ok tt, set_user_files (insert output_path (Pdf doc)) w)
           | Refused => (Raise FitzSaveError, w)
           | Interrupted =>
               (Raise FitzSaveError, set_user_files (insert output_path Truncated) w)
           end.

(** The [for temp_pdf in temp_pdfs] loop; [doc] is the document being
    assembled in memory. *)
Fixpoint merge_loop (temp_pdfs : list (option nat)) (doc : list page) : M (list page) :=
  match temp_pdfs with
  | [] => ret doc
  | temp_pdf :: rest =>
      part <- fitz_open temp_pdf ;;
      let doc := doc ++ part in
      os_remove temp_pdf ;;;
      merge_loop rest doc
  end.

Definition is_none {A} (o : option A) : bool :=
  match o with None => true | Some _ => false end.

(** [pool.close()] and [pool.join()] of the [finally] clause do not touch
    the files. *)
Definition render_pdf (order : list nat) (html_chunks : list str) (output_path : string)
    : M bool :=
  logger INFO "Rendering chunks in parallel..." ;;;
  finally
    (try_except
       (temp_pdfs <- (fun w => let '(r, w) := pool_map order html_chunks w in (Ok r, w)) ;;
        (if existsb is_none temp_pdfs then raise ChunkRenderFailed else ret tt) ;;;
        logger INFO "Merging chunks..." ;;;
        doc <- merge_loop temp_pdfs [] ;;
        doc_save doc output_path ;;;
        logger INFO "PDF generation successful." ;;;
        ret true)
       (fun e => logger ERROR "Failed to render PDF" ;;; raise e))
    (fun w => w).

End Renderer.
End Renderer.

Module Cli.
Section Cli.
Context {U : CharClass} {P : Pil} {X : Lxml} {C : Collaborators}.
Import Converter Renderer.
Local Open Scope M_scope.

Record args := {
  arg_input : string;
  arg_output : option string;
  arg_bold_ratio : Q;
  arg_font : str;
  arg_verbose : bool
}.

(** [pdf_to_html(input_path, font_family, bold_ratio)], conversion
    included. *)
Definition convert_to_chunks (input_path : string) (font_family : str) (bold_ratio : Q)
    : M (list str) :=
  match load_document input_path with
  | None => logger ERROR "pdf2docx failed" ;;; raise ConversionError
  | Some doc =>
      let '(chunks, lg) :=
        pdf_to_html doc (html_head font_family doc) html_tail bold_ratio in
      modify (add_log lg) ;;; ret chunks
  end.

(** The destination: [args.output], or the path derived from the input. *)
Definition output_path (a : args) : string :=
  match arg_output a with
  | None | Some EmptyString => default_output (arg_input a)
  | Some o => o
  end.

(** [main()] from the point where [parse_args()] has returned [a]: the
    exit status of the process and the world it leaves.  ([argparse] ends
    the process by itself, before any of this, on a command line it
    rejects and on [--help].)  [schedule n] is the order in which the [n]
    render workers finish.  The log keeps the records of the failures, of
    the conversion and of the rendering; the progress records that [main]
    writes at level INFO before the rendering are not kept. *)
Definition main (a : args) (schedule : nat -> list nat) (w : world) : Z * world :=
  let input_path := arg_input a in
  match user_files w !! input_path with
  | None => (1%Z, add_log [(ERROR, "Input file not found", input_path)] w)
  | Some _ =>
      let job :=
        html_chunks <- convert_to_chunks input_path (arg_font a) (arg_bold_ratio a) ;;
        render_pdf (schedule (length html_chunks)) html_chunks (output_path a) ;;;
        logger INFO "Success! Output saved" in
      match job w with
      | (Ok _, w') => (0%Z, w')
      | (Raise _, w') => (1%Z, add_log [(ERROR, "Fatal error", ""%string)] w')
      end
  end.

End Cli.
End Cli.

(** ** The plain-text projection of a markup fragment

    Follows the specification's words ("all tag markup stripped"): every
    [<...>] segment, from a ['<'] to the next ['>'], is deleted; a ['<']
    that is never closed is ordinary text (the substitution of the regular
    expression [<[^>]*>] by the empty string).  [pending] holds the
    characters read since an unclosed ['<']. *)
Fixpoint strip_tags_from (pending : option str) (s : str) : str :=
  match s with
  | [] => match pending with Some buf => buf | None => [] end
  | c :: s' =>
      match pending with
      | None =>
          if (c =? chr_lt)%N then strip_tags_from (Some [c]) s'
          else c :: strip_tags_from None s'
      | Some buf =>
          if (c =? chr_gt)%N then strip_tags_from None s'
          else strip_tags_from (Some (buf ++ [c])) s'
      end
  end.

Definition plain_text (fragment : str) : str := strip_tags_from None fragment.

(** ** Notions used in the statements *)

(** The matches of [finditer] come in order and inside the text. *)
Fixpoint ordered (lo : nat) (ms : list (nat * nat)) (hi : nat) : Prop :=
  match ms with
  | [] => lo <= hi
  | (a, b) :: ms' => lo <= a /\ a <= b /\ ordered b ms' hi
  end.

(** A body element for which the walk emits a block. *)
Definition is_block (el : body_element) : bool :=
  match el with BodyOther => false | _ => true end.

(** A drawing that refers to the image [rid]. *)
Definition refers_to (rid : string) (d : drawing) : Prop :=
  blip_embed d = Some (Some rid).

#[global] Instance refers_to_dec (rid : string) (d : drawing) : Decision (refers_to rid d).
Proof. unfold refers_to. solve_decision. Defined.

(** The run without its drawings of the image [rid]. *)
Definition without_drawings (rid : string) (r : run) : run :=
  {| run_text := run_text r; run_bold := run_bold r; run_italic := run_italic r;
     run_underline := run_underline r; run_font_size := run_font_size r;
     run_drawings := filter (fun d => ~ refers_to rid d) (run_drawings r);
     run_breaks := run_breaks r |}.

(** The document without the relationships of the image [rid]. *)
Definition without_image (rid : string) (doc : document) : document :=
  {| doc_body := doc_body doc;
     doc_rels := filter (fun rel => rId rel <> rid) (doc_rels doc) |}.

(** The tasks [extract_images_from_doc] submits. *)
Definition image_tasks (doc : document) : list (list Byte.byte * string) :=
  map (fun rel => (target_blob rel, rId rel))
      (filter (fun rel => ImageHandler.is_image_rel rel = true) (doc_rels doc)).

(** The pages [write_pdf] produces for a chunk, when it produces a PDF. *)
Definition rendered_pages {C : Collaborators} (html_content : str) : list page :=
  match write_pdf html_content with
  | Some (Pdf pages) => pages
  | _ => []
  end.

(** A chunk that the renderer turns into a readable PDF. *)
Definition renders {C : Collaborators} (html_content : str) : Prop :=
  exists pages, write_pdf html_content = Some (Pdf pages).

(** The state of [pool.map] once the tasks of [done] have finished, in a
    world that was [w0] when the call started: every finished task has its
    own temporary file, which holds the pages of its chunk; its path is
    stored at the index of the task; nothing else has changed. *)
Definition pool_inv {C : Collaborators} (html_chunks : list str) (w0 : world)
    (done : list nat) (st : list (option nat) * world) : Prop :=
  let '(slots, w) := st in
  length slots = length html_chunks /\
  user_files w = user_files w0 /\
  (forall i, i ∈ done ->
     exists p c, html_chunks !! i = Some c /\ slots !! i = Some (Some p) /\
                 tmp_dir w !! p = Some (Pdf (rendered_pages c)) /\
                 tmp_dir w0 !! p = None) /\
  (forall i j p, i ∈ done -> j ∈ done ->
     slots !! i = Some (Some p) -> slots !! j = Some (Some p) -> i = j) /\
  (forall p, (forall i, i ∈ done -> slots !! i <> Some (Some p)) ->
     tmp_dir w !! p = tmp_dir w0 !! p).

(** An element of class "image-container". *)
Definition is_image_container (e : element) : Prop :=
  el_tag e = "div"%string /\ attr_get "class" (el_attrib e) = Some (lit "image-container").

(** A text without the character that opens markup. *)
Definition markup_free (s : str) : Prop := Forall (fun c => c <> chr_lt) s.

(** A text that is empty or made of white space only. *)
Definition blank {U : CharClass} (s : str) : Prop :=
  Forall (fun c => isspace c = true) s.

(** ** A small world for the closed examples

    The collaborators are external, so the examples fix simple ones: a
    decoder that reads the first two bytes as the width (big endian) and
    the number of bytes that follow as the height of an opaque picture,
    and rejects a string of fewer than two bytes; a [resize] that, as
    Pillow does, rejects a size with a dimension that is not positive; a
    serialiser that writes tags and text only and a parser that is never
    called by the examples; a renderer that fails on a chunk with a tab
    character and otherwise makes a PDF of one page; a converter that
    returns the document under test. *)
Record picture := {
  pic_mode : string;
  pic_transparency : bool;
  pic_size : Z * Z
}.

Definition example_pil : Pil := {|
  image := picture;
  img_mode := pic_mode;
  img_transparency := pic_transparency;
  img_size := pic_size;
  image_open data :=
    match data with
    | hi :: lo :: rows =>
        Some {| pic_mode := "RGB"; pic_transparency := false;
                pic_size := (256 * Z.of_N (Byte.to_N hi) + Z.of_N (Byte.to_N lo),
                             Z.of_nat (length rows))%Z |}
    | _ => None
    end;
  image_convert im mode :=
    Some {| pic_mode := mode; pic_transparency := pic_transparency im;
            pic_size := pic_size im |};
  image_resize im new_size :=
    if ((0 <? new_size.1) && (0 <? new_size.2))%Z
    then Some {| pic_mode := pic_mode im; pic_transparency := pic_transparency im;
                 pic_size := new_size |}
    else None;
  image_save _ _ := Some [];
  b64encode _ := lit "AAAA"
|}.

Fixpoint serialize (e : element) : str :=
  let 'Element t _ x c l := e in
  lit "<" ++ lit t ++ lit ">" ++ x ++ concat (map serialize c)
  ++ lit "</" ++ lit t ++ lit ">" ++ l.

Definition example_lxml : Lxml := {|
  html_fromstring _ := None;
  html_tostring := serialize;
  format_float _ := lit "12.0"
|}.

Definition example_collaborators (doc : document) (save : save_outcome) : Collaborators := {|
  load_document _ := Some doc;
  html_head _ _ := lit "<body>";
  html_tail := lit "</body>";
  write_pdf html_content :=
    if existsb (N.eqb 9) html_content then None else Some (Pdf [length html_content]);
  fitz_save _ := save;
  default_output input := (input +:+ "_bionic.pdf")%string
|}.

Definition plain_run (text : str) : run := {|
  run_text := text; run_bold := true; run_italic := false; run_underline := false;
  run_font_size := None; run_drawings := []; run_breaks := 0
|}.

Definition one_run_paragraph (text : str) : body_element :=
  BodyParagraph {| par_alignment := None; par_runs := [plain_run text] |}.

(** 250 paragraphs of one space; the paragraph of index 149, in the second
    chunk, holds a tab instead. *)
Definition document_250 : document := {|
  doc_body := replicate 149 (one_run_paragraph (lit " "))
              ++ [one_run_paragraph [9%N]]
              ++ replicate 100 (one_run_paragraph (lit " "));
  doc_rels := []
|}.

(** A paragraph with the drawing of the image "rId1", whose bytes do not
    decode. *)
Definition picture_run : run := {|
  run_text := []; run_bold := false; run_italic := false; run_underline := false;
  run_font_size := None;
  run_drawings := [{| blip_embed := Some (Some "rId1"%string); anchor_offset := None |}];
  run_breaks := 0
|}.

Definition picture_paragraph : paragraph :=
  {| par_alignment := None; par_runs := [picture_run] |}.

Definition broken_image_document : document := {|
  doc_body := [BodyParagraph picture_paragraph];
  doc_rels := [{| reltype := "http://schemas.openxmlformats.org/officeDocument/2006/relationships/image";
                  rId := "rId1"; target_blob := [] |}]
|}.

Definition example_args : Cli.args := {|
  Cli.arg_input := "in.pdf"; Cli.arg_output := None; Cli.arg_bold_ratio := 1 # 2;
  Cli.arg_font := lit "Arial"; Cli.arg_verbose := false
|}.

Definition example_world : world := {|
  tmp_dir := ∅; user_files := {[ "in.pdf"%string := Bytes ]}; log := []; stdout := []
|}.

(** ** More of the code *)

(** *** converter.py: the dominant font size *)

Module Fonts.
Section Fonts.
Context {X : Lxml}.











End Fonts.
End Fonts.


(** *** utils.py *)

Module Utils.

(** The "bionic_reader" logger as [setup_logging] configures it: its level
    ([None] while not set) and the levels of its handlers. *)
Record logger_config := {
  logger_level : option level;
  logger_handlers : list level
}.

Definition new_logger : logger_config := {| logger_level := None; logger_handlers := [] |}.

Definition setup_logging (verbose : bool) (lg : logger_config) : logger_config :=
  let level := if verbose then DEBUG else INFO in
  let ch := level in
  {| logger_level := Some level;
     logger_handlers := match logger_handlers lg with [] => [ch] | hs => hs end |}.

End Utils.

(** *** processor.py: the walk of [apply_bionic_reading] *)

(** A node of a BeautifulSoup tree: a [NavigableString] or a [Tag] with its
    name, attributes and children. *)
#[warnings="-register-all"]
Inductive bs_node :=
  | BsString (s : str)
  | BsTag (name : string) (attrs : list (string * str)) (children : list bs_node).

(** [bs_fragment markup] is what
    [child.replace_with(BeautifulSoup(markup, "html.parser"))] puts in the
    place of [child]: the parsed object itself or, where bs4 unpacks a
    [BeautifulSoup] object on insertion, its contents. *)
Class Bs4 := { bs_fragment : str -> list bs_node }.

Module ProcessorHtml.
Section ProcessorHtml.
Context {U : CharClass} {B : Bs4}.
Import Processor.

(** [name in ['script', 'style', 'title']] *)
Definition skipped (name : string) : bool :=
  String.eqb name "script" || String.eqb name "style" || String.eqb name "title".

(** [recurse_replace(node)]: the children are walked over a copy of the
    list, so a node put in place of a string is not visited. *)
Fixpoint recurse_replace (bold_ratio : Q) (node : bs_node) : bs_node :=
  match node with
  | BsString _ => node
  | BsTag name attrs children =>
      BsTag name attrs
        (flat_map (fun child =>
                     match child with
                     | BsString s =>
                         if skipped name then [child]
                         else match process_text_node s bold_ratio with
                              | Some (c :: new_html) => bs_fragment (c :: new_html)
                              | _ => [child]
                              end
                     | BsTag _ _ _ => [recurse_replace bold_ratio child]
                     end)
                  children)
  end.

(** A tree in which every string is blank or lies directly under a
    [script], [style] or [title] element. *)
Fixpoint settled (node : bs_node) : Prop :=
  match node with
  | BsString _ => True
  | BsTag name _ children =>
      (fix all (nodes : list bs_node) : Prop :=
         match nodes with
         | [] => True
         | child :: nodes' =>
             match child with
             | BsString s => skipped name = true \/ blank s
             | BsTag _ _ _ => settled child
             end /\ all nodes'
         end) children
  end.

End ProcessorHtml.
End ProcessorHtml.

(** *** Notions used in the further statements *)

(** The run and the paragraph without the anchors of their drawings. *)
Definition without_anchors (r : run) : run :=
  {| run_text := run_text r; run_bold := run_bold r; run_italic := run_italic r;
     run_underline := run_underline r; run_font_size := run_font_size r;
     run_drawings :=
       map (fun d => {| blip_embed := blip_embed d; anchor_offset := None |}) (run_drawings r);
     run_breaks := run_breaks r |}.

Definition paragraph_without_anchors (par : paragraph) : paragraph :=
  {| par_alignment := par_alignment par; par_runs := map without_anchors (par_runs par) |}.

(** An image relationship for which [process_single_image] answers no
    data URL. *)
Definition not_processed {P : Pil} (rel : relationship) : Prop :=
  ImageHandler.is_image_rel rel = true /\
  (ImageHandler.process_single_image (target_blob rel) (rId rel)).1.2 = None.

#[global] Instance not_processed_dec {P : Pil} (rel : relationship) :
  Decision (not_processed rel).
Proof. unfold not_processed. solve_decision. Defined.

Definition is_warning (r : log_record) : Prop := r.1.1 = WARNING.

#[global] Instance level_eq_dec : EqDecision level.
Proof. solve_decision. Defined.

#[global] Instance is_warning_dec (r : log_record) : Decision (is_warning r).
Proof. unfold is_warning. solve_decision. Defined.



(** *** More examples

    A document with one image that decodes and one relationship that is
    not an image. *)
Definition image_document : document := {|
  doc_body := [BodyParagraph picture_paragraph];
  doc_rels := [{| reltype := "http://schemas.openxmlformats.org/officeDocument/2006/relationships/image";
                  rId := "rId1"; target_blob := [Byte.x01; Byte.x02; Byte.x03] |};
               {| reltype := "http://schemas.openxmlformats.org/officeDocument/2006/relationships/styles";
                  rId := "rId2"; target_blob := [] |}]
|}.

(** A parser for the walk that answers the markup as one string, and a
    page whose strings are blank or style text. *)
Definition example_bs4 : Bs4 := {| bs_fragment markup := [BsString markup] |}.

Definition settled_page : bs_node :=
  BsTag "body" []
    [BsString (lit " ");
     BsTag "style" [] [BsString (lit "p { margin: 0 }")];
     BsTag "div" [] [BsString [10%N]]].


(* ================================================================== *)
(** * Theorems *)

(** ** Float arithmetic *)

Section FloatFacts.
Local Open Scope Z_scope.

Lemma pow2_pos (e : Z) : (0 < pow2 e)%Q.
Proof. apply Qpower_0_lt. reflexivity. Qed.

Lemma pow2_add (a b : Z) : (pow2 (a + b) == pow2 a * pow2 b)%Q.
Proof. apply Qpower_plus. discriminate. Qed.

Lemma pow2_le (a b : Z) : a <= b -> (pow2 a <= pow2 b)%Q.
Proof. intros H. apply Qpower_le_compat_l; [exact H|discriminate]. Qed.

Lemma pow2_lt (a b : Z) : a < b -> (pow2 a < pow2 b)%Q.
Proof. intros H. apply Qpower_lt_compat_l; [exact H|reflexivity]. Qed.

Lemma pow2_lt_inv (a b : Z) : (pow2 a < pow2 b)%Q -> a < b.
Proof. intros H. apply (Qpower_lt_compat_l_inv 2); [exact H|reflexivity]. Qed.

Lemma pow2_Z (e : Z) : 0 <= e -> (pow2 e == inject_Z (2 ^ e))%Q.
Proof. intros H. unfold pow2. rewrite Zpower_Qpower by exact H. reflexivity. Qed.

(** The exponent of a positive number: [2^e <= x < 2^(e+1)]. *)
Lemma ilog2_spec (x : Q) :
  (0 < x)%Q -> (pow2 (ilog2 x) <= x /\ x < pow2 (ilog2 x + 1))%Q.
Proof.
  intros Hx. destruct x as [n d]. assert (Hn : 0 < n) by (unfold Qlt in Hx; cbn in Hx; lia).
  unfold ilog2. cbn [Qnum Qden]. rewrite (Z.abs_eq n) by lia.
  rewrite (Qabs_pos (n # d)) by (apply Qlt_le_weak; exact Hx).
  set (a := Z.log2 n). set (b := Z.log2 (Z.pos d)).
  pose proof (Z.log2_spec n Hn) as [Ha1 Ha2]. fold a in Ha1, Ha2.
  pose proof (Z.log2_spec (Z.pos d) ltac:(lia)) as [Hb1 Hb2]. fold b in Hb1, Hb2.
  assert (Ha0 : 0 <= a) by apply Z.log2_nonneg.
  assert (Hb0 : 0 <= b) by apply Z.log2_nonneg.
  assert (Hd : (0 < inject_Z (Z.pos d))%Q) by (rewrite <- (Zlt_Qlt 0); lia).
  assert (Hup : (n # d < pow2 (a - b + 1))%Q).
  { rewrite (Qmake_Qdiv n d). apply Qlt_shift_div_r; [exact Hd|].
    apply Qlt_le_trans with (pow2 (a - b + 1) * pow2 b)%Q.
    - rewrite <- pow2_add. replace (a - b + 1 + b) with (Z.succ a) by lia.
      rewrite pow2_Z by lia. rewrite <- Zlt_Qlt. exact Ha2.
    - apply Qmult_le_l; [apply pow2_pos|]. rewrite pow2_Z by lia.
      rewrite <- Zle_Qle. exact Hb1. }
  assert (Hlow : (pow2 (a - b - 1) <= n # d)%Q).
  { rewrite (Qmake_Qdiv n d). apply Qle_shift_div_l; [exact Hd|].
    apply Qle_trans with (pow2 (a - b - 1) * pow2 (Z.succ b))%Q.
    - apply Qmult_le_l; [apply pow2_pos|]. rewrite pow2_Z by lia.
      rewrite <- Zle_Qle. lia.
    - rewrite <- pow2_add. replace (a - b - 1 + Z.succ b) with a by lia.
      rewrite pow2_Z by lia. rewrite <- Zle_Qle. exact Ha1. }
  destruct (Qle_bool (pow2 (a - b)) (n # d)) eqn:E.
  - apply Qle_bool_iff in E. split; [exact E|exact Hup].
  - split; [exact Hlow|]. replace (a - b - 1 + 1) with (a - b) by lia.
    apply Qnot_le_lt. intros H. apply Qle_bool_iff in H. congruence.
Qed.

Lemma ilog2_unique (x : Q) (e : Z) :
  (pow2 e <= x)%Q -> (x < pow2 (e + 1))%Q -> ilog2 x = e.
Proof.
  intros H1 H2.
  assert (Hx : (0 < x)%Q) by (eapply Qlt_le_trans; [apply (pow2_pos e)|exact H1]).
  destruct (ilog2_spec x Hx) as [H3 H4].
  assert (ilog2 x < e + 1) by (apply pow2_lt_inv; eapply Qle_lt_trans; eauto).
  assert (e < ilog2 x + 1) by (apply pow2_lt_inv; eapply Qle_lt_trans; eauto).
  lia.
Qed.

Lemma ilog2_comp (x y : Q) : (0 < x)%Q -> (x == y)%Q -> ilog2 x = ilog2 y.
Proof.
  intros Hx Hxy. symmetry. destruct (ilog2_spec x Hx) as [H1 H2].
  apply ilog2_unique; rewrite <- Hxy; assumption.
Qed.

(** Rounding to the nearest integer. *)
Lemma round_half_even_bounds (t : Q) :
  (t - (1#2) <= inject_Z (round_half_even t) /\ inject_Z (round_half_even t) <= t + (1#2))%Q.
Proof.
  unfold round_half_even. pose proof (Qfloor_le t) as H1. pose proof (Qlt_floor t) as H2.
  rewrite inject_Z_plus in H2. change (inject_Z 1) with 1%Q in H2.
  destruct (Qcompare_spec (t - inject_Z (Qfloor t)) (1#2)) as [E|E|E].
  - destruct (Z.even (Qfloor t));
      [|rewrite inject_Z_plus; change (inject_Z 1) with 1%Q]; split; lra.
  - split; lra.
  - rewrite inject_Z_plus. change (inject_Z 1) with 1%Q. split; lra.
Qed.

Lemma round_half_even_comp (t u : Q) : (t == u)%Q -> round_half_even t = round_half_even u.
Proof.
  intros H. unfold round_half_even.
  assert (Hf : Qfloor t = Qfloor u) by (rewrite H; reflexivity).
  rewrite Hf. assert (Hc : Qcompare (t - inject_Z (Qfloor u)) (1#2) = Qcompare (u - inject_Z (Qfloor u)) (1#2)) by (rewrite H; reflexivity).
  rewrite Hc. reflexivity.
Qed.

Lemma round_half_even_le (t : Q) (M : Z) : (t <= inject_Z M)%Q -> round_half_even t <= M.
Proof.
  intros H. destruct (round_half_even_bounds t) as [_ H2].
  assert (Hlt : (inject_Z (round_half_even t) < inject_Z (M + 1))%Q) by (rewrite inject_Z_plus; change (inject_Z 1) with 1%Q; lra).
  rewrite <- Zlt_Qlt in Hlt. lia.
Qed.

Lemma round_half_even_ge (t : Q) (M : Z) : (inject_Z M <= t)%Q -> M <= round_half_even t.
Proof.
  intros H. destruct (round_half_even_bounds t) as [H1 _].
  assert (Hlt : (inject_Z (M - 1) < inject_Z (round_half_even t))%Q).
  { unfold Z.sub. rewrite inject_Z_plus. change (inject_Z (- (1))) with (-(1))%Q. lra. }
  rewrite <- Zlt_Qlt in Hlt. lia.
Qed.

Lemma round_half_even_lt (t : Q) (M : Z) :
  (t < inject_Z M - (1#2))%Q -> round_half_even t < M.
Proof.
  intros H. destruct (round_half_even_bounds t) as [_ H2].
  assert (Hlt : (inject_Z (round_half_even t) < inject_Z M)%Q) by lra.
  rewrite <- Zlt_Qlt in Hlt. exact Hlt.
Qed.

Lemma round64_value (x : Q) :
  (round64 x == inject_Z (round_half_even (x / ulp x)) * ulp x)%Q.
Proof. unfold round64. apply Qred_correct. Qed.

Lemma ulp_pos (x : Q) : (0 < ulp x)%Q.
Proof. apply pow2_pos. Qed.

Lemma ulp_comp (x y : Q) : (0 < x)%Q -> (x == y)%Q -> ulp x = ulp y.
Proof. intros Hx H. unfold ulp. rewrite (ilog2_comp x y Hx H). reflexivity. Qed.

Lemma round64_comp (x y : Q) : (0 < x)%Q -> (x == y)%Q -> (round64 x == round64 y)%Q.
Proof.
  intros Hx H. rewrite !round64_value. rewrite (ulp_comp x y Hx H).
  rewrite (round_half_even_comp (x / ulp y) (y / ulp y)); [reflexivity|].
  unfold Qdiv. apply Qmult_comp; [exact H|reflexivity].
Qed.

Lemma round64_0 (x : Q) : (x == 0)%Q -> (round64 x == 0)%Q.
Proof.
  intros H. rewrite round64_value.
  rewrite (round_half_even_comp (x / ulp x) 0).
  - reflexivity.
  - unfold Qdiv. rewrite (Qmult_comp _ _ H _ _ (Qeq_refl (/ ulp x))). apply Qmult_0_l.
Qed.

Lemma ulp_exponent (x : Q) :
  (0 < x)%Q -> (x < pow2 53)%Q -> Z.max (ilog2 x) (-1022) - 52 <= 0.
Proof.
  intros Hx Hb. destruct (ilog2_spec x Hx) as [H1 _].
  assert (ilog2 x < 53) by (apply pow2_lt_inv; eapply Qle_lt_trans; eauto). lia.
Qed.

(** Below [2^53] the integers are multiples of the unit in the last place. *)
Lemma ulp_divides (x : Q) :
  (0 < x)%Q -> (x < pow2 53)%Q ->
  exists j, 0 <= j /\ (ulp x * inject_Z (2 ^ j) == 1)%Q.
Proof.
  intros Hx Hb. pose proof (ulp_exponent x Hx Hb) as Hp.
  exists (- (Z.max (ilog2 x) (-1022) - 52)). split; [lia|].
  rewrite <- pow2_Z by lia. unfold ulp. rewrite <- pow2_add.
  replace (_ + _) with 0 by lia. reflexivity.
Qed.

Lemma round64_le_int (x : Q) (n : Z) :
  (0 < x)%Q -> (x < pow2 53)%Q -> (x <= inject_Z n)%Q -> (round64 x <= inject_Z n)%Q.
Proof.
  intros Hx Hb Hn. destruct (ulp_divides x Hx Hb) as (j & Hj & Hu).
  pose proof (ulp_pos x) as Hup. rewrite round64_value.
  assert (Hm : round_half_even (x / ulp x) <= n * 2 ^ j).
  { apply round_half_even_le. rewrite inject_Z_mult.
    apply Qle_shift_div_r; [exact Hup|].
    rewrite <- Qmult_assoc, (Qmult_comm (inject_Z (2 ^ j))), Hu, Qmult_1_r. exact Hn. }
  apply Qle_trans with (inject_Z (n * 2 ^ j) * ulp x)%Q.
  - apply Qmult_le_compat_r; [|apply Qlt_le_weak; exact Hup]. rewrite <- Zle_Qle. exact Hm.
  - rewrite inject_Z_mult, <- Qmult_assoc, (Qmult_comm (inject_Z (2 ^ j))), Hu, Qmult_1_r.
    apply Qle_refl.
Qed.

Lemma round64_ge_int (x : Q) (n : Z) :
  (0 < x)%Q -> (x < pow2 53)%Q -> (inject_Z n <= x)%Q -> (inject_Z n <= round64 x)%Q.
Proof.
  intros Hx Hb Hn. destruct (ulp_divides x Hx Hb) as (j & Hj & Hu).
  pose proof (ulp_pos x) as Hup. rewrite round64_value.
  assert (Hm : n * 2 ^ j <= round_half_even (x / ulp x)).
  { apply round_half_even_ge. rewrite inject_Z_mult.
    apply Qle_shift_div_l; [exact Hup|].
    rewrite <- Qmult_assoc, (Qmult_comm (inject_Z (2 ^ j))), Hu, Qmult_1_r. exact Hn. }
  apply Qle_trans with (inject_Z (n * 2 ^ j) * ulp x)%Q.
  - rewrite inject_Z_mult, <- Qmult_assoc, (Qmult_comm (inject_Z (2 ^ j))), Hu, Qmult_1_r.
    apply Qle_refl.
  - apply Qmult_le_compat_r; [|apply Qlt_le_weak; exact Hup]. rewrite <- Zle_Qle. exact Hm.
Qed.

(** The integers below [2^53] are floats. *)
Lemma round64_int (n : Z) :
  0 < n < 2 ^ 53 -> (round64 (inject_Z n) == inject_Z n)%Q.
Proof.
  intros [H0 Hn].
  assert (Hx : (0 < inject_Z n)%Q) by (rewrite <- (Zlt_Qlt 0); lia).
  assert (Hb : (inject_Z n < pow2 53)%Q) by (rewrite pow2_Z by lia; rewrite <- Zlt_Qlt; lia).
  apply Qle_antisym.
  - apply round64_le_int; [exact Hx|exact Hb|apply Qle_refl].
  - apply round64_ge_int; [exact Hx|exact Hb|apply Qle_refl].
Qed.

Lemma pow2_m53 : (pow2 (-53) == 1 # 9007199254740992)%Q.
Proof. reflexivity. Qed.

(** A product that stays a relative [2^-53] below an integer is rounded
    below that integer. *)
Lemma round64_lt_int (x : Q) (L : Z) :
  (0 < x)%Q -> 0 < L < 2 ^ 53 ->
  (x <= inject_Z L * (1 - pow2 (-53)))%Q ->
  (round64 x < inject_Z L)%Q.
Proof.
  intros Hx [HL0 HL] Hle.
  pose proof (pow2_pos (-53)) as H53.
  assert (HLq : (1 <= inject_Z L)%Q) by (rewrite <- (Zle_Qle 1); lia).
  assert (HxL : (x < inject_Z L)%Q) by nra.
  assert (Hb : (x < pow2 53)%Q).
  { eapply Qlt_trans; [exact HxL|]. rewrite pow2_Z by lia. rewrite <- Zlt_Qlt. lia. }
  destruct (ulp_divides x Hx Hb) as (j & Hj & Hu).
  pose proof (ulp_pos x) as Hup.
  set (e := Z.max (ilog2 x) (-1022)).
  assert (He : (pow2 e < inject_Z L)%Q).
  { destruct (ilog2_spec x Hx) as [H1 _]. unfold e.
    destruct (Z.max_spec (ilog2 x) (-1022)) as [[_ ->]|[_ ->]].
    - eapply Qlt_le_trans; [|exact HLq]. apply (pow2_lt (-1022) 0). lia.
    - eapply Qle_lt_trans; eauto. }
  assert (Hhalf : (ulp x * (1#2) == pow2 e * pow2 (-53))%Q).
  { unfold ulp. fold e. replace (e - 52) with (e + -53 + 1) by lia.
    rewrite !pow2_add. change (pow2 1) with 2%Q. field. }
  assert (Hm : round_half_even (x / ulp x) < L * 2 ^ j).
  { apply round_half_even_lt. rewrite inject_Z_mult.
    apply Qlt_shift_div_r; [exact Hup|].
    setoid_replace ((inject_Z L * inject_Z (2 ^ j) - (1 # 2)) * ulp x)%Q
      with (inject_Z L * (ulp x * inject_Z (2 ^ j)) - ulp x * (1#2))%Q using relation Qeq by ring.
    rewrite Hu, Hhalf. nra. }
  rewrite round64_value.
  apply Qle_lt_trans with (inject_Z (L * 2 ^ j - 1) * ulp x)%Q.
  - apply Qmult_le_compat_r; [|apply Qlt_le_weak; exact Hup]. rewrite <- Zle_Qle. lia.
  - unfold Z.sub. rewrite inject_Z_plus, inject_Z_mult.
    change (inject_Z (- (1))) with (-(1))%Q.
    setoid_replace ((inject_Z L * inject_Z (2 ^ j) + - (1)) * ulp x)%Q
      with (inject_Z L * (ulp x * inject_Z (2 ^ j)) - ulp x)%Q using relation Qeq by ring.
    rewrite Hu. lra.
Qed.

(** The relative error of a rounding in the normal range. *)
Lemma round64_relative (x : Q) :
  (pow2 (-1022) <= x)%Q ->
  (x * (1 - pow2 (-53)) <= round64 x /\ round64 x <= x * (1 + pow2 (-53)))%Q.
Proof.
  intros Hn. pose proof (pow2_pos (-1022)) as H0.
  assert (Hx : (0 < x)%Q) by lra.
  destruct (ilog2_spec x Hx) as [H1 H2].
  assert (He : -1022 <= ilog2 x).
  { assert (-1022 < ilog2 x + 1) by (apply pow2_lt_inv; eapply Qle_lt_trans; eauto). lia. }
  pose proof (ulp_pos x) as Hup.
  assert (Hhalf : (ulp x * (1#2) == pow2 (ilog2 x) * pow2 (-53))%Q).
  { unfold ulp. rewrite Z.max_l by lia.
    replace (ilog2 x - 52) with (ilog2 x + -53 + 1) by lia.
    rewrite !pow2_add. change (pow2 1) with 2%Q. field. }
  pose proof (pow2_pos (-53)) as H53.
  assert (Hu2 : (ulp x * (1#2) <= x * pow2 (-53))%Q).
  { rewrite Hhalf. apply Qmult_le_compat_r; [exact H1|lra]. }
  destruct (round_half_even_bounds (x / ulp x)) as [B1 B2].
  assert (Hxu : (x / ulp x * ulp x == x)%Q) by (field; lra).
  rewrite round64_value.
  set (m := inject_Z (round_half_even (x / ulp x))) in *.
  assert (B1' : ((x / ulp x - (1#2)) * ulp x <= m * ulp x)%Q)
    by (apply Qmult_le_compat_r; lra).
  assert (B2' : (m * ulp x <= (x / ulp x + (1#2)) * ulp x)%Q)
    by (apply Qmult_le_compat_r; lra).
  setoid_replace ((x / ulp x - (1#2)) * ulp x)%Q with (x / ulp x * ulp x - ulp x * (1#2))%Q using relation Qeq in B1' by ring.
  setoid_replace ((x / ulp x + (1#2)) * ulp x)%Q with (x / ulp x * ulp x + ulp x * (1#2))%Q using relation Qeq in B2' by ring.
  rewrite Hxu in B1', B2'. split; lra.
Qed.

(** The greatest float below 1 is [1 - 2^-53]. *)
Lemma float_below_1 (r : Q) :
  is_float r -> (0 < r)%Q -> (r < 1)%Q -> (r <= 1 - pow2 (-53))%Q.
Proof.
  intros Hf H0 H1. pose proof pow2_m53 as H53.
  destruct (Qlt_le_dec r (1#2)) as [Hs|Hl]; [lra|].
  assert (He : ilog2 r = -1).
  { apply ilog2_unique; [change (pow2 (-1)) with (1#2); exact Hl|exact H1]. }
  unfold is_float in Hf. rewrite round64_value in Hf.
  assert (Hu : ulp r = pow2 (-53)) by (unfold ulp; rewrite He; reflexivity).
  rewrite Hu in Hf.
  set (m := round_half_even (r / pow2 (-53))) in *.
  assert (Hm : m < 2 ^ 53).
  { rewrite Zlt_Qlt. change (inject_Z (2 ^ 53)) with (9007199254740992 # 1).
    rewrite H53 in Hf. lra. }
  assert (Hm' : (inject_Z m <= inject_Z (2 ^ 53 - 1))%Q) by (rewrite <- Zle_Qle; lia).
  change (inject_Z (2 ^ 53 - 1)) with (9007199254740991 # 1) in Hm'.
  rewrite H53 in Hf |- *. lra.
Qed.

(** On a float that is not negative, [int] is the floor. *)
Lemma py_int_floor (p : Q) : (0 <= p)%Q -> py_int p = Qfloor p.
Proof.
  intros Hp. unfold py_int. destruct p as [n d]. unfold Qle in Hp. cbn in *.
  apply Z.quot_div_nonneg; lia.
Qed.

End FloatFacts.

(** ** Facts about slices and the projection *)

Lemma slice_join (s : str) (a b c : nat) :
  a <= b -> b <= c -> slice s a b ++ slice s b c = slice s a c.
Proof.
  intros Hab Hbc. unfold slice.
  replace (drop b s) with (drop (b - a) (drop a s))
    by (rewrite drop_drop; f_equal; lia).
  rewrite take_take_drop. f_equal. lia.
Qed.

Lemma slice_to_end (s : str) (a : nat) :
  slice s 0 a ++ drop a s = s.
Proof. unfold slice. rewrite Nat.sub_0_r, drop_0. apply take_drop. Qed.

Lemma slice_all (s : str) (a : nat) :
  length s <= a -> slice s 0 a = s.
Proof. intros H. unfold slice. rewrite Nat.sub_0_r, drop_0. by apply take_ge. Qed.

Lemma slice_Forall (P : char -> Prop) (s : str) (a b : nat) :
  Forall P s -> Forall P (slice s a b).
Proof. intros H. unfold slice. by apply Forall_take, Forall_drop. Qed.

Lemma strip_tags_text (a rest : str) :
  markup_free a ->
  strip_tags_from None (a ++ rest) = a ++ strip_tags_from None rest.
Proof.
  induction 1 as [|c a Hc _ IH]; [done|]. cbn [app strip_tags_from].
  destruct (N.eqb_spec c chr_lt) as [->|_]; [done|]. by rewrite IH.
Qed.

Lemma plain_text_markup_free (a : str) : markup_free a -> plain_text a = a.
Proof.
  intros H. unfold plain_text. rewrite <- (app_nil_r a) at 1.
  rewrite strip_tags_text by done. cbn. apply app_nil_r.
Qed.

Lemma strip_tags_inside (buf a rest : str) :
  Forall (fun c => c <> chr_gt) a ->
  strip_tags_from (Some buf) (a ++ chr_gt :: rest) = strip_tags_from None rest.
Proof.
  intros H. revert buf. induction H as [|c a Hc _ IH]; intros buf.
  - done.
  - cbn [app strip_tags_from].
    destruct (N.eqb_spec c chr_gt) as [->|_]; [done|]. apply IH.
Qed.

Section ProcessorFacts.
Context {U : CharClass}.
Import Processor.

Lemma strip_prefix_open (rest : str) :
  strip_tags_from None (prefix_open ++ rest) = strip_tags_from None rest.
Proof. reflexivity. Qed.

Lemma strip_rest_open (rest : str) :
  strip_tags_from None (rest_open ++ rest) = strip_tags_from None rest.
Proof. reflexivity. Qed.

Lemma strip_span_close (rest : str) :
  strip_tags_from None (span_close ++ rest) = strip_tags_from None rest.
Proof. reflexivity. Qed.

(** A wrapped word projects to the word, whatever the split point. *)
Lemma strip_wrap_word (word rest : str) (r : Q) :
  markup_free word ->
  strip_tags_from None (wrap_word word r ++ rest) = word ++ strip_tags_from None rest.
Proof.
  intros Hw. unfold wrap_word. destruct (length word =? 1).
  - rewrite <- !app_assoc, strip_prefix_open, strip_tags_text by done.
    by rewrite strip_span_close.
  - cbv zeta. rewrite <- !app_assoc, strip_prefix_open.
    rewrite strip_tags_text by (by apply Forall_take).
    rewrite strip_span_close, strip_rest_open.
    rewrite strip_tags_text by (by apply Forall_drop).
    by rewrite strip_span_close, app_assoc, take_drop.
Qed.

Lemma ordered_weaken (lo lo' : nat) (ms : list (nat * nat)) (hi : nat) :
  lo' <= lo -> ordered lo ms hi -> ordered lo' ms hi.
Proof. destruct ms as [|[a b] ms]; cbn; intuition lia. Qed.

Lemma ordered_le (ms : list (nat * nat)) (lo hi : nat) :
  ordered lo ms hi -> lo <= hi.
Proof.
  revert lo. induction ms as [|[a b] ms IH]; cbn; intros lo H; [done|].
  destruct H as (? & ? & H). apply IH in H. lia.
Qed.

Lemma scan_words_ordered (s : str) (pos : nat) (opened : option nat) :
  match opened with Some st => st <= pos | None => True end ->
  ordered (match opened with Some st => st | None => pos end)
          (scan_words s pos opened) (pos + length s).
Proof.
  revert pos opened. induction s as [|c s IH]; intros pos opened Hop.
  - destruct opened; cbn; lia.
  - cbn [scan_words length].
    replace (pos + S (length s)) with (S pos + length s) by lia.
    destruct (is_word_char c).
    + specialize (IH (S pos) (Some (match opened with Some st => st | None => pos end))).
      apply IH. destruct opened; lia.
    + specialize (IH (S pos) None I). cbn beta iota in IH.
      destruct opened as [st|].
      * cbn [ordered]. split; [lia|]. split; [lia|].
        eapply ordered_weaken; [|exact IH]. lia.
      * eapply ordered_weaken; [|exact IH]. lia.
Qed.

(** The matches are the maximal runs of word characters: each match is a
    non-empty run of word characters that stops at the end of the text or
    before a character that is not a word character, and every word
    character of the text lies in a match. *)
Lemma scan_words_runs (s : str) :
  forall (pre : str) (opened : option nat),
    match opened with
    | Some st => st < length pre /\ Forall (fun c => is_word_char c = true) (drop st pre)
    | None => True
    end ->
    (forall a b, (a, b) ∈ scan_words s (length pre) opened ->
       a < b <= length (pre ++ s) /\
       Forall (fun c => is_word_char c = true) (slice (pre ++ s) a b) /\
       (forall c, (pre ++ s) !! b = Some c -> is_word_char c = false)) /\
    (forall i c, s !! i = Some c -> is_word_char c = true ->
       exists a b, (a, b) ∈ scan_words s (length pre) opened /\ a <= length pre + i < b) /\
    match opened with
    | Some st => exists b ms, scan_words s (length pre) opened = (st, b) :: ms /\ length pre <= b
    | None => True
    end.
Proof.
  induction s as [|c s IH]; intros pre opened Hop.
  - cbn [scan_words]. rewrite app_nil_r. split; [|split].
    + destruct opened as [st|]; intros a b Hab; [|by apply elem_of_nil in Hab].
      apply list_elem_of_singleton in Hab as [= -> ->]. destruct Hop as [Hst Hw].
      split; [lia|]. split.
      * unfold slice. by rewrite take_ge by (rewrite length_drop; lia).
      * intros c Hc. apply lookup_lt_Some in Hc. lia.
    + intros i c Hc. by rewrite lookup_nil in Hc.
    + destruct opened as [st|]; [|done]. exists (length pre), []. split; [done|lia].
  - cbn [scan_words].
    replace (pre ++ c :: s) with ((pre ++ [c]) ++ s) by (by rewrite <- app_assoc).
    replace (S (length pre)) with (length (pre ++ [c]))
      by (rewrite length_app; cbn; lia).
    destruct (is_word_char c) eqn:Ec.
    + set (st' := match opened with Some st => st | None => length pre end).
      destruct (IH (pre ++ [c]) (Some st')) as (H1 & H2 & (b & ms & Hscan & Hb)).
      { rewrite length_app. cbn [length]. subst st'. destruct opened as [st|].
        - destruct Hop as [Hst Hw]. split; [lia|].
          rewrite drop_app_le by lia. apply Forall_app. split; [done|]. by constructor.
        - split; [lia|]. rewrite drop_app_length. by constructor. }
      rewrite length_app in Hb. cbn [length] in Hb.
      split; [done|]. split.
      * intros [|i] c' Hc' Hw'.
        -- exists st', b. rewrite Hscan. split; [by left|].
           subst st'. destruct opened as [st|]; [destruct Hop|]; lia.
        -- destruct (H2 i c' Hc' Hw') as (a & b' & Hin & Hi).
           exists a, b'. split; [done|]. rewrite length_app in Hi. cbn [length] in Hi. lia.
      * destruct opened as [st|]; [|done]. exists b, ms. split; [done|lia].
    + destruct (IH (pre ++ [c]) None I) as (H1 & H2 & _).
      assert (Hcov : forall ms0 i c',
                 (c :: s) !! i = Some c' -> is_word_char c' = true ->
                 exists a b, (a, b) ∈ ms0 ++ scan_words s (length (pre ++ [c])) None
                             /\ a <= length pre + i < b).
      { intros ms0 [|i] c' Hc' Hw'; [cbn in Hc'; congruence|].
        destruct (H2 i c' Hc' Hw') as (a & b' & Hin & Hi).
        exists a, b'. split; [apply elem_of_app; by right|].
        rewrite length_app in Hi. cbn [length] in Hi. lia. }
      destruct opened as [st|].
      * destruct Hop as [Hst Hw]. split; [|split].
        -- intros a b [[= -> ->]|Hab]%elem_of_cons; [|by apply H1].
           split; [rewrite !length_app; lia|]. split.
           ++ unfold slice. rewrite <- app_assoc, drop_app_le by lia.
              rewrite take_app_le by (rewrite length_drop; lia).
              by rewrite take_ge by (rewrite length_drop; lia).
           ++ intros c'. rewrite <- app_assoc, lookup_app_r by lia.
              rewrite Nat.sub_diag. cbn. congruence.
        -- apply (Hcov [(st, length pre)]).
        -- exists (length pre), (scan_words s (length (pre ++ [c])) None).
           split; [done|lia].
      * split; [done|]. split; [apply (Hcov [])|done].
Qed.

Lemma finditer_words_runs (text : str) :
  (forall a b, (a, b) ∈ finditer_words text ->
     a < b <= length text /\
     Forall (fun c => is_word_char c = true) (slice text a b) /\
     (forall c, text !! b = Some c -> is_word_char c = false)) /\
  (forall i c, text !! i = Some c -> is_word_char c = true ->
     exists a b, (a, b) ∈ finditer_words text /\ a <= i < b).
Proof.
  destruct (scan_words_runs text [] None I) as (H1 & H2 & _). split; [done|].
  intros i c Hc Hw. destruct (H2 i c Hc Hw) as (a & b & Hin & Hi).
  exists a, b. split; [done|]. cbn in Hi. lia.
Qed.

Lemma finditer_words_ordered (text : str) :
  ordered 0 (finditer_words text) (length text).
Proof. apply (scan_words_ordered text 0 None I). Qed.

(** The loop emits, for the stretch [last_index .. last_index'] of the
    text it walks over, markup that projects to exactly that stretch. *)
Lemma word_loop_projects (text : str) (r : Q) (ms : list (nat * nat)) :
  markup_free text ->
  forall (last : nat) (acc : list str),
    ordered last ms (length text) ->
    let '(last', new_html) := word_loop text r ms last acc in
    last <= last' <= length text /\
    exists out : str,
      concat new_html = concat acc ++ out /\
      forall rest, strip_tags_from None (out ++ rest)
                   = slice text last last' ++ strip_tags_from None rest.
Proof.
  intros Hfree. induction ms as [|[a b] ms IH]; intros last acc Hord.
  - cbn in *. split; [lia|]. exists []. split; [by rewrite app_nil_r|].
    intros rest. unfold slice. by rewrite Nat.sub_diag, take_0.
  - cbn [word_loop]. cbn in Hord. destruct Hord as (Hla & Hab & Hord).
    set (acc1 := if last <? a then acc ++ [slice text last a] else acc).
    specialize (IH b (acc1 ++ [wrap_word (slice text a b) r]) Hord).
    destruct (word_loop text r ms b _) as [last' new_html].
    destruct IH as (Hb & out & Hcat & Hout).
    split; [lia|].
    exists (slice text last a ++ wrap_word (slice text a b) r ++ out). split.
    + rewrite Hcat, concat_app. cbn [concat]. rewrite app_nil_r.
      subst acc1. destruct (Nat.ltb_spec last a).
      * rewrite concat_app. cbn [concat]. by rewrite app_nil_r, <- !app_assoc.
      * replace a with last by lia. unfold slice at 2.
        by rewrite Nat.sub_diag, take_0, <- app_assoc.
    + intros rest. rewrite <- !app_assoc.
      rewrite strip_tags_text by (by apply slice_Forall).
      rewrite strip_wrap_word by (by apply slice_Forall).
      rewrite Hout, !app_assoc. f_equal.
      rewrite slice_join by lia. apply slice_join; lia.
Qed.

Lemma lstrip_nil (s : str) : lstrip s = [] <-> Forall (fun c => isspace c = true) s.
Proof.
  induction s as [|c s IH]; cbn; [split; auto|].
  destruct (isspace c) eqn:E.
  - rewrite IH. split; [by constructor|by inversion 1].
  - split; [done|]. inversion 1; congruence.
Qed.

Lemma lstrip_keeps (s : str) :
  Forall (fun c => isspace c = true) (lstrip s) ->
  Forall (fun c => isspace c = true) s.
Proof.
  induction s as [|c s IH]; cbn; [done|].
  destruct (isspace c) eqn:E; [|done]. intros H. constructor; auto.
Qed.

(** [not text.strip()] holds exactly for the texts made of white space
    only, the empty text included. *)
Lemma strip_nil (s : str) : strip s = [] <-> Forall (fun c => isspace c = true) s.
Proof.
  unfold strip. rewrite <- (reverse_involutive []) at 1.
  rewrite (inj_iff reverse), reverse_nil, lstrip_nil, Forall_reverse. split.
  - apply lstrip_keeps.
  - intros H. clear -H. induction H as [|c s Hc Hs IH]; cbn; [done|]. by rewrite Hc.
Qed.

Lemma process_text_node_None_iff (text : str) (r : Q) :
  process_text_node text r = None <-> blank text.
Proof.
  unfold process_text_node, blank. rewrite <- strip_nil.
  destruct (strip text); [done|].
  destruct (word_loop _ _ _ _ _). split; discriminate.
Qed.

(** What the transform returns projects to the text it was given. *)
Lemma process_text_node_projects (t out : str) (r : Q) :
  markup_free t -> process_text_node t r = Some out -> plain_text out = t.
Proof.
  intros Hfree. unfold process_text_node.
  destruct (strip t); [done|].
  pose proof (word_loop_projects t r (finditer_words t) Hfree 0 []
                (finditer_words_ordered t)) as H.
  destruct (word_loop t r (finditer_words t) 0 []) as [last new_html].
  destruct H as (Hlast & frag & Hcat & Hfrag). cbn [concat app] in Hcat.
  intros [= <-]. unfold plain_text.
  destruct (Nat.ltb_spec last (length t)).
  - rewrite concat_app, Hcat. cbn [concat]. rewrite app_nil_r, Hfrag.
    fold (plain_text (drop last t)).
    rewrite plain_text_markup_free by (by apply Forall_drop).
    apply slice_to_end.
  - rewrite Hcat, <- (app_nil_r frag), Hfrag. cbn [strip_tags_from].
    rewrite app_nil_r. apply slice_all. lia.
Qed.

(** C1 (amended): for every ratio in (0,1], a text that is empty or
    white space only gives null (no fragment), and for a text with at least
    one character that is not white space and without the character '<'
    the transform returns a fragment whose plain-text projection is the
    text, character for character. *)
Theorem process_text_node_roundtrip (t : str) (r : Q) :
  is_float r -> (0 < r)%Q -> (r <= 1)%Q ->
  (blank t -> process_text_node t r = None) /\
  (~ blank t -> markup_free t ->
   exists out, process_text_node t r = Some out /\ plain_text out = t).
Proof.
  intros _ _ _. split.
  - apply process_text_node_None_iff.
  - intros Hnb Hfree.
    destruct (process_text_node t r) as [out|] eqn:Eout.
    + exists out. split; [done|]. by apply (process_text_node_projects t out r).
    + exfalso. apply Hnb. by apply (process_text_node_None_iff t r).
Qed.

(** ** The split point *)

(** The product of a length below [2^53] and a ratio in (0,1], as the
    code computes it: it lies between the floor and the ceiling of the
    exact product and is at most the length. *)
Lemma length_times_ratio (L : Z) (r : Q) :
  (0 < L < 2 ^ 53)%Z -> (0 < r)%Q -> (r <= 1)%Q ->
  let x := (inject_Z L * r)%Q in
  let p := py_int (fmul (float_of_int L) r) in
  (Qfloor x <= p)%Z /\ (p <= Qceiling x)%Z /\ (0 <= p <= L)%Z /\
  (is_float r -> (r < 1)%Q -> (p < L)%Z) /\
  ((r == 1)%Q -> p = L).
Proof.
  intros HL Hr0 Hr1 x p.
  pose proof (round64_int L HL) as HfL. fold (float_of_int L) in HfL.
  assert (HLq : (0 < inject_Z L)%Q) by (rewrite <- (Zlt_Qlt 0); lia).
  set (y := (float_of_int L * r)%Q).
  assert (Hyx : (y == x)%Q) by (unfold y, x; by rewrite HfL).
  assert (Hx0 : (0 < x)%Q) by (unfold x; nra).
  assert (Hy0 : (0 < y)%Q) by (by rewrite Hyx).
  assert (HxL : (x <= inject_Z L)%Q) by (unfold x; nra).
  assert (Hb : (y < pow2 53)%Q).
  { rewrite Hyx. eapply Qle_lt_trans; [exact HxL|].
    rewrite pow2_Z by lia. rewrite <- Zlt_Qlt. lia. }
  assert (Hlow : (inject_Z (Qfloor x) <= round64 y)%Q).
  { apply round64_ge_int; [done..|]. rewrite Hyx. apply Qfloor_le. }
  assert (Hup : (round64 y <= inject_Z (Qceiling x))%Q).
  { apply round64_le_int; [done..|]. rewrite Hyx. apply Qle_ceiling. }
  assert (HupL : (round64 y <= inject_Z L)%Q).
  { apply round64_le_int; [done..|]. by rewrite Hyx. }
  assert (Hpos : (0 <= round64 y)%Q).
  { apply (round64_ge_int y 0); [done..|]. by apply Qlt_le_weak. }
  assert (Hp : p = Qfloor (round64 y)) by (by apply py_int_floor).
  assert (Hfl : forall n, (inject_Z n <= round64 y)%Q -> (n <= p)%Z).
  { intros n Hn. rewrite Hp, <- (Qfloor_Z n). by apply Qfloor_resp_le. }
  assert (Hfu : forall n, (round64 y <= inject_Z n)%Q -> (p <= n)%Z).
  { intros n Hn. rewrite Hp, <- (Qfloor_Z n). by apply Qfloor_resp_le. }
  split; [by apply Hfl|]. split; [by apply Hfu|].
  split; [split; [by apply (Hfl 0%Z)|by apply Hfu]|]. split.
  - intros Hf Hlt. pose proof (float_below_1 r Hf Hr0 Hlt) as Hr.
    assert (Hlt' : (round64 y < inject_Z L)%Q).
    { apply round64_lt_int; [done..|]. rewrite Hyx. unfold x.
      apply Qmult_le_l; done. }
    pose proof (Qfloor_le (round64 y)) as Hle. rewrite <- Hp in Hle.
    rewrite Zlt_Qlt. by eapply Qle_lt_trans.
  - intros Heq. apply Z.le_antisymm; [by apply Hfu|]. apply Hfl.
    apply round64_ge_int; [done..|]. rewrite Hyx. unfold x. rewrite Heq.
    rewrite Qmult_1_r. apply Qle_refl.
Qed.

(** C2 (amended): for a word of length [L >= 2] and a ratio in (0,1],
    [wrap_word] emits two adjacent spans, the "bionic-prefix" span over
    [0,k) and the "bionic-rest" span over [k,L), with
    [k = max(1, int(L*r))] for the rounded float product [L*r]; this [k]
    lies between [max(1, floor(L*r))] and [max(1, ceil(L*r))] of the exact
    product and [1 <= k <= L]; [k < L] for every ratio below 1, and
    [k = L] (an empty second span) at ratio 1. *)
Theorem wrap_word_split (word : str) (r : Q) :
  2 <= length word -> (Z.of_nat (length word) < 2 ^ 53)%Z ->
  is_float r -> (0 < r)%Q -> (r <= 1)%Q ->
  let L := length word in
  let k := split_point word r in
  Z.of_nat k = Z.max 1 (py_int (fmul (float_of_int (Z.of_nat L)) r)) /\
  (Z.max 1 (Qfloor (inject_Z (Z.of_nat L) * r)) <= Z.of_nat k
   <= Z.max 1 (Qceiling (inject_Z (Z.of_nat L) * r)))%Z /\
  1 <= k <= L /\
  ((r < 1)%Q -> k < L) /\
  ((r == 1)%Q -> k = L) /\
  wrap_word word r
  = prefix_open ++ take k word ++ span_close
    ++ rest_open ++ drop k word ++ span_close /\
  length (take k word) = k /\ length (drop k word) = L - k.
Proof.
  intros HL Hbig Hf Hr0 Hr1 L k.
  destruct (length_times_ratio (Z.of_nat L) r ltac:(lia) Hr0 Hr1)
    as (Hlow & Hup & [Hp0 HpL] & Hlt & Heq).
  assert (Hk : Z.of_nat k = Z.max 1 (py_int (fmul (float_of_int (Z.of_nat L)) r)))
    by (unfold k, split_point; fold L; lia).
  split; [done|]. split; [lia|]. split; [lia|].
  split; [intros Hr; specialize (Hlt Hf Hr); lia|].
  split; [intros Hr; specialize (Heq Hr); lia|].
  split.
  - unfold wrap_word. destruct (Nat.eqb_spec (length word) 1); [lia|done].
  - rewrite length_take, length_drop. fold L. lia.
Qed.

End ProcessorFacts.

(** ** The chunker *)

Section ConverterFacts.
Context {U : CharClass} {P : Pil} {X : Lxml}.
Import Processor ImageHandler Converter.

Lemma chunk_loop_count (head tail : str) (body : list element) :
  forall (cur : list element) (chunks : list str),
    length cur < CHUNK_SIZE ->
    let '(cur', chunks') := chunk_loop head tail body cur chunks in
    length chunks' = length chunks + (length cur + length body) / CHUNK_SIZE /\
    length cur' = (length cur + length body) mod CHUNK_SIZE.
Proof.
  unfold CHUNK_SIZE.
  induction body as [|elem body IH]; intros cur chunks Hcur.
  - cbn [chunk_loop length]. rewrite Nat.add_0_r.
    rewrite Nat.div_small, Nat.mod_small by lia. lia.
  - cbn [chunk_loop length]. rewrite length_app. cbn [length].
    unfold CHUNK_SIZE. destruct (Nat.leb_spec 100 (length cur + 1)).
    + specialize (IH [] (chunks ++ [chunk_html head tail (cur ++ [elem])])).
      destruct (chunk_loop head tail body [] _) as [cur' chunks'].
      destruct IH as [IH1 IH2]; [cbn; lia|].
      rewrite length_app in IH1. cbn [length Nat.add] in IH1, IH2.
      replace (length cur + S (length body)) with (length body + 1 * 100) by lia.
      rewrite Nat.div_add, Nat.Div0.mod_add by lia. lia.
    + specialize (IH (cur ++ [elem]) chunks).
      destruct (chunk_loop head tail body (cur ++ [elem]) chunks) as [cur' chunks'].
      rewrite length_app in IH. cbn [length] in IH.
      replace (length cur + S (length body)) with (length cur + 1 + length body) by lia.
      apply IH. lia.
Qed.

(** The number of chunks for a body of [N] blocks: [ceil(N / 100)], and
    one chunk when there is no block. *)
Lemma make_chunks_count (head tail : str) (body : list element) :
  length (make_chunks head tail body)
  = if length body =? 0 then 1 else (length body + 99) / 100.
Proof.
  unfold make_chunks.
  pose proof (chunk_loop_count head tail body [] []) as H.
  destruct (chunk_loop head tail body [] []) as [cur chunks].
  destruct H as [H1 H2]; [unfold CHUNK_SIZE; cbn; lia|].
  unfold CHUNK_SIZE in *. cbn [length Nat.add] in H1, H2.
  set (n := length body) in *.
  pose proof (Nat.div_mod_eq n 100) as Hdm.
  pose proof (Nat.mod_upper_bound n 100 ltac:(lia)) as Hm.
  assert (Hceil : (n + 99) / 100 = n / 100 + (if n mod 100 =? 0 then 0 else 1)).
  { destruct (Nat.eqb_spec (n mod 100) 0) as [E|E].
    - replace (n + 99) with (99 + (n / 100) * 100) by lia.
      rewrite Nat.div_add by lia. cbn. lia.
    - replace (n + 99) with ((n mod 100 - 1) + (n / 100 + 1) * 100) by lia.
      rewrite Nat.div_add by lia. rewrite Nat.div_small by lia. lia. }
  rewrite Hceil. destruct cur as [|e cur].
  - cbn [length] in H2. rewrite <- H2. cbn [Nat.eqb].
    destruct chunks as [|c chunks].
    + cbn [length] in H1. destruct (Nat.eqb_spec n 0); [done|]. lia.
    + destruct (Nat.eqb_spec n 0) as [E|E]; [rewrite E in H1; cbn in H1; lia|].
      lia.
  - cbn [length] in H2.
    destruct (Nat.eqb_spec n 0) as [E|E]; [rewrite E in H2; cbn in H2; lia|].
    destruct (Nat.eqb_spec (n mod 100) 0); [lia|].
    destruct (chunks ++ [chunk_html head tail (e :: cur)]) as [|c l] eqn:Ec.
    + by destruct chunks.
    + rewrite <- Ec, length_app. cbn [length]. lia.
Qed.

(** The chunks are the pages of a partition of the body into groups of at
    most 100 blocks, in order; every group but the last has 100 blocks. *)
Lemma chunk_loop_partition (head tail : str) (body : list element) :
  forall (cur : list element) (chunks : list str) (groups : list (list element)),
    chunks = map (chunk_html head tail) groups ->
    Forall (fun g => length g = CHUNK_SIZE) groups ->
    length cur < CHUNK_SIZE ->
    let '(cur', chunks') := chunk_loop head tail body cur chunks in
    exists groups',
      chunks' = map (chunk_html head tail) groups' /\
      Forall (fun g => length g = CHUNK_SIZE) groups' /\
      concat groups' ++ cur' = concat groups ++ cur ++ body /\
      length cur' < CHUNK_SIZE.
Proof.
  induction body as [|elem body IH]; intros cur chunks groups Hch Hfull Hcur.
  - cbn [chunk_loop]. exists groups. by rewrite app_nil_r.
  - cbn [chunk_loop]. destruct (Nat.leb_spec CHUNK_SIZE (length (cur ++ [elem]))) as [Hge|Hlt].
    + specialize (IH [] (chunks ++ [chunk_html head tail (cur ++ [elem])])
                     (groups ++ [cur ++ [elem]])).
      destruct (chunk_loop head tail body [] _) as [cur' chunks'].
      destruct IH as (groups' & H1 & H2 & H3 & H4).
      * by rewrite map_app, Hch.
      * apply Forall_app. split; [done|]. constructor; [|done].
        rewrite length_app in *. cbn [length] in *. lia.
      * unfold CHUNK_SIZE. cbn. lia.
      * exists groups'. split; [done|]. split; [done|]. split; [|done].
        rewrite H3, concat_app. cbn [concat app]. by rewrite app_nil_r, <- !app_assoc.
    + specialize (IH (cur ++ [elem]) chunks groups Hch Hfull Hlt).
      destruct (chunk_loop head tail body (cur ++ [elem]) chunks) as [cur' chunks'].
      destruct IH as (groups' & H1 & H2 & H3 & H4).
      exists groups'. split; [done|]. split; [done|]. split; [|done].
      by rewrite H3, <- !app_assoc.
Qed.

Lemma make_chunks_partition (head tail : str) (body : list element) :
  body <> [] ->
  exists groups,
    make_chunks head tail body = map (chunk_html head tail) groups /\
    concat groups = body /\
    Forall (fun g => 0 < length g <= CHUNK_SIZE) groups.
Proof.
  intros Hne. unfold make_chunks.
  pose proof (chunk_loop_partition head tail body [] [] [] eq_refl (Forall_nil_2 _)) as H.
  destruct (chunk_loop head tail body [] []) as [cur chunks].
  destruct H as (groups & H1 & H2 & H3 & H4); [unfold CHUNK_SIZE; cbn; lia|].
  cbn [concat app] in H3.
  assert (Hfull : Forall (fun g => 0 < length g <= CHUNK_SIZE) groups).
  { eapply Forall_impl; [exact H2|]. unfold CHUNK_SIZE. intros g ->. lia. }
  destruct cur as [|e cur].
  - rewrite app_nil_r in H3. exists groups. split; [|done].
    subst chunks. destruct groups as [|g groups]; [|done]. by cbn in H3.
  - exists (groups ++ [e :: cur]). split; [|split].
    + rewrite map_app. cbn [map]. subst chunks.
      by destruct (map (chunk_html head tail) groups ++ _) eqn:E;
        [destruct (map _ groups)|].
    + rewrite concat_app. cbn [concat]. by rewrite app_nil_r.
    + apply Forall_app. split; [done|]. constructor; [|done]. cbn [length] in *. lia.
Qed.

Lemma body_content_length (doc : document) (images : gmap string str) (r : Q) :
  length (body_content doc images r) = length (filter (fun el => is_block el = true) (doc_body doc)).
Proof.
  unfold body_content. induction (doc_body doc) as [|el l IH]; [done|].
  cbn [flat_map]. rewrite length_app, IH, filter_cons.
  destruct el; cbn [is_block]; case_decide; try done; cbn [length]; lia.
Qed.

(** C6: for a document whose body holds [N] blocks (paragraphs and
    tables), [pdf_to_html] returns [ceil(N / 100)] chunks, each the page
    of at most 100 consecutive blocks, and exactly one chunk, the empty
    page [head + tail], when [N = 0]. *)
Theorem pdf_to_html_chunk_count (doc : document) (head tail : str) (r : Q) :
  let N := length (filter (fun el => is_block el = true) (doc_body doc)) in
  let chunks := fst (pdf_to_html doc head tail r) in
  (N = 0 -> chunks = [head ++ tail]) /\
  (0 < N -> Z.of_nat (length chunks) = Qceiling (inject_Z (Z.of_nat N) / 100)) /\
  (0 < N ->
   exists groups : list (list element),
     chunks = map (chunk_html head tail) groups /\
     concat groups = body_content doc (extract_images_from_doc doc).1 r /\
     Forall (fun g => 0 < length g <= 100) groups).
Proof.
  intros N chunks. subst chunks. unfold pdf_to_html.
  destruct (extract_images_from_doc doc) as [images lg]. cbn [fst].
  pose proof (make_chunks_count head tail (body_content doc images r)) as H.
  pose proof (body_content_length doc images r) as Hl. fold N in Hl.
  rewrite Hl in H. split; [|split].
  - intros HN. rewrite HN in Hl.
    destruct (body_content doc images r); [done|discriminate].
  - intros HN. rewrite H. destruct (Nat.eqb_spec N 0) as [|_]; [lia|].
    rewrite Nat2Z.inj_div, Nat2Z.inj_add.
    change (Z.of_nat 99) with 99%Z. change (Z.of_nat 100) with 100%Z.
    generalize (Z.of_nat N) as n. intros n.
    assert (Qceiling (inject_Z n / 100) = - ((- n) / 100))%Z as ->.
    { unfold Qceiling, Qfloor. cbn. by rewrite Z.mul_1_r. }
    pose proof (Z.div_mod (n + 99) 100 ltac:(lia)).
    pose proof (Z.mod_pos_bound (n + 99) 100 ltac:(lia)).
    pose proof (Z.div_mod (- n) 100 ltac:(lia)).
    pose proof (Z.mod_pos_bound (- n) 100 ltac:(lia)).
    lia.
  - intros HN. apply make_chunks_partition. intros Hnil. rewrite Hnil in Hl.
    cbn in Hl. lia.
Qed.

(** ** Image normalisation *)

(** The rounding of the two float operations stays inside the tolerance
    of 1: if the quotient [1200 / w] and the product [w * ratio] are each
    off by a relative error of at most [2^-53] (the unit roundoff of a
    double), [int] of the product is 1199 or 1200. *)
Lemma scaled_width_with_rounding (w : Z) (ratio product : Q) :
  (MAX_IMAGE_WIDTH < w)%Z ->
  (Qabs (ratio - inject_Z MAX_IMAGE_WIDTH / inject_Z w)
   <= (1 # 9007199254740992) * (inject_Z MAX_IMAGE_WIDTH / inject_Z w))%Q ->
  (Qabs (product - inject_Z w * ratio)
   <= (1 # 9007199254740992) * (inject_Z w * ratio))%Q ->
  (1199 <= py_int product <= 1200)%Z.
Proof.
  unfold MAX_IMAGE_WIDTH. intros Hw H1 H2.
  assert (HW : (1200 < inject_Z w)%Q)
    by (change 1200%Q with (inject_Z 1200); rewrite <- Zlt_Qlt; lia).
  change (inject_Z 1200) with 1200%Q in H1.
  set (W := inject_Z w) in *. set (z := (1200 / W)%Q) in *.
  assert (Hz : (W * z == 1200)%Q) by (unfold z; field; lra).
  apply Qabs_Qle_condition in H1 as [H1a H1b].
  apply Qabs_Qle_condition in H2 as [H2a H2b].
  assert (Ha : (0 <= W * (ratio - z * (1 - (1 # 9007199254740992))))%Q)
    by (apply Qmult_le_0_compat; lra).
  assert (Hb : (0 <= W * (z * (1 + (1 # 9007199254740992)) - ratio))%Q)
    by (apply Qmult_le_0_compat; lra).
  assert (E1 : (W * (ratio - z * (1 - (1 # 9007199254740992)))
                == W * ratio - 1200 * (1 - (1 # 9007199254740992)))%Q)
    by (rewrite <- Hz; ring).
  assert (E2 : (W * (z * (1 + (1 # 9007199254740992)) - ratio)
                == 1200 * (1 + (1 # 9007199254740992)) - W * ratio)%Q)
    by (rewrite <- Hz; ring).
  rewrite E1 in Ha. rewrite E2 in Hb. clear E1 E2 Hz H1a H1b.
  generalize dependent (W * ratio)%Q. intros x H2a H2b Ha Hb.
  assert (Hp : (1199 <= product /\ product < 1201)%Q) by lra.
  destruct Hp as [Hp1 Hp2].
  rewrite py_int_floor by lra. split.
  - rewrite <- (Qfloor_Z 1199). by apply Qfloor_resp_le.
  - pose proof (Qfloor_le product) as F.
    assert (H : (inject_Z (Qfloor product) < inject_Z 1201)%Q)
      by (change (inject_Z 1201) with 1201%Q; lra).
    rewrite <- Zlt_Qlt in H. lia.
Qed.

(** What [encode] answers is a data URL made of what [image_save] wrote. *)
Lemma encode_Some (image_data : list Byte.byte) (data_url : str) :
  encode image_data = Some data_url ->
  exists (im0 im1 im2 : image) (format_type : string) (final_data : list Byte.byte),
    image_open image_data = Some im0 /\
    (if String.eqb (img_mode im0) "RGBA" || String.eqb (img_mode im0) "LA"
        || (String.eqb (img_mode im0) "P" && img_transparency im0)
     then im1 = im0 /\ format_type = "PNG"%string
     else image_convert im0 "RGB" = Some im1 /\ format_type = "JPEG"%string) /\
    (if (MAX_IMAGE_WIDTH <? (img_size im1).1)%Z
     then image_resize im1 (new_size (img_size im1).1 (img_size im1).2) = Some im2
     else im2 = im1) /\
    image_save im2 format_type = Some final_data /\
    data_url = lit "data:"
               ++ (if String.eqb format_type "JPEG" then lit "image/jpeg" else lit "image/png")
               ++ lit ";base64," ++ b64encode final_data.
Proof.
  unfold encode. intros H.
  apply bind_Some in H as (im0 & Ho & H).
  apply bind_Some in H as ([im1 fmt] & Hc & H).
  destruct (img_size im1) as [width height] eqn:Hs.
  apply bind_Some in H as (im2 & Hr & H).
  apply bind_Some in H as (final_data & Hsave & H).
  injection H as <-.
  exists im0, im1, im2, fmt, final_data. split; [done|]. split; [|split; [|done]].
  - destruct (_ || _).
    + by injection Hc as <- <-.
    + apply bind_Some in Hc as (im' & Hc & [= <- <-]). done.
  - rewrite Hs. cbn [fst snd]. destruct (_ <? _)%Z; [done|by injection Hr].
Qed.

Lemma process_single_image_url (image_data : list Byte.byte) (rel_id : string) (url : str) :
  (process_single_image image_data rel_id).1.2 = Some url ->
  exists c u, url = c :: u /\ process_single_image image_data rel_id = ((rel_id, Some url), []).
Proof.
  unfold process_single_image. destruct (encode image_data) as [u|] eqn:E; [|done].
  cbn. intros [= <-].
  destruct (encode_Some _ _ E) as (im0 & im1 & im2 & fmt & final & _ & _ & _ & _ & ->).
  by eexists 100%N, _.
Qed.

(** The size requested from [resize] for an image wider than 1200. *)
Lemma new_size_bounds (w h : Z) :
  (MAX_IMAGE_WIDTH < w < 2 ^ 53)%Z -> (0 <= h < 2 ^ 53)%Z ->
  let E := (inject_Z h * 1200 / inject_Z w)%Q in
  (1199 <= (new_size w h).1 <= 1200)%Z /\
  (0 <= (new_size w h).2 <= h)%Z /\
  (E * (1 - (1 # 2251799813685248)) - 1 < inject_Z (new_size w h).2)%Q /\
  (inject_Z (new_size w h).2 <= E * (1 + (1 # 2251799813685248)))%Q.
Proof.
  intros [Hw1 Hw2] [Hh1 Hh2] E. unfold MAX_IMAGE_WIDTH in Hw1.
  pose proof pow2_m53 as H53.
  pose proof (round64_int w ltac:(lia)) as HfW. fold (float_of_int w) in HfW.
  assert (HW : (1200 < inject_Z w)%Q)
    by (change 1200%Q with (inject_Z 1200); rewrite <- Zlt_Qlt; lia).
  assert (HW2 : (inject_Z w < 9007199254740992)%Q)
    by (change 9007199254740992%Q with (inject_Z (2 ^ 53)); rewrite <- Zlt_Qlt; lia).
  set (W := inject_Z w) in *.
  set (q := (inject_Z 1200 / float_of_int w)%Q).
  set (rho := (1200 / W)%Q).
  assert (Hq : (q == rho)%Q) by (unfold q, rho; rewrite HfW; reflexivity).
  assert (Hrho : (W * rho == 1200)%Q) by (unfold rho; field; lra).
  assert (Hrho0 : (0 < rho)%Q) by (unfold rho; apply Qlt_shift_div_l; lra).
  assert (Hrho1 : (rho < 1)%Q) by (unfold rho; apply Qlt_shift_div_r; lra).
  assert (Hrho2 : ((1 # 9007199254740992) <= rho)%Q)
    by (unfold rho; apply Qle_shift_div_l; lra).
  assert (Hsmall : (pow2 (-1022) <= 1 # 18014398509481984)%Q).
  { change (1 # 18014398509481984) with (pow2 (-54)). apply pow2_le. lia. }
  unfold new_size, fdiv, fmul. cbv zeta. cbn [fst snd].
  change (inject_Z MAX_IMAGE_WIDTH) with (inject_Z 1200). fold q.
  set (ratio := round64 q).
  destruct (round64_relative q) as [R1 R2]; [rewrite Hq; lra|].
  fold ratio in R1, R2. rewrite Hq, H53 in R1, R2.
  assert (Hratio1 : (ratio <= 1)%Q).
  { change 1%Q with (inject_Z 1). apply round64_le_int.
    - rewrite Hq. done.
    - rewrite Hq. eapply Qlt_trans; [exact Hrho1|]. apply (pow2_lt 0 53). lia.
    - rewrite Hq. by apply Qlt_le_weak. }
  (* the width *)
  set (xw := (float_of_int w * ratio)%Q).
  assert (Hxw : (xw == W * ratio)%Q) by (unfold xw; by rewrite HfW).
  destruct (round64_relative xw) as [P1 P2].
  { rewrite Hxw. nra. }
  set (pw := round64 xw) in *.
  rewrite Hxw, H53 in P1, P2.
  split.
  { apply (scaled_width_with_rounding w ratio pw).
    - unfold MAX_IMAGE_WIDTH. lia.
    - unfold MAX_IMAGE_WIDTH. fold W. change (inject_Z 1200) with 1200%Q. fold rho.
      apply Qabs_Qle_condition. split; lra.
    - fold W. apply Qabs_Qle_condition. split; lra. }
  (* the height *)
  set (xh := (float_of_int h * ratio)%Q).
  destruct (Z.eq_dec h 0%Z) as [Hh0|Hh0].
  { assert (Hh : (inject_Z h == 0)%Q) by (by rewrite Hh0).
    assert (Hz : (round64 xh == 0)%Q).
    { apply round64_0. unfold xh, float_of_int. rewrite (round64_0 (inject_Z h) Hh).
      apply Qmult_0_l. }
    assert (HE : (E == 0)%Q) by (unfold E; rewrite Hh; field; lra).
    set (ph := round64 xh) in *.
    assert (Hpos : (0 <= ph)%Q) by (rewrite Hz; apply Qle_refl).
    rewrite py_int_floor by exact Hpos.
    rewrite (Qfloor_comp _ _ Hz). change (Qfloor 0) with 0%Z. rewrite HE.
    split; [lia|]. change (inject_Z 0) with 0%Q. split; lra. }
  pose proof (round64_int h ltac:(lia)) as HfH. fold (float_of_int h) in HfH.
  assert (HH : (1 <= inject_Z h)%Q) by (rewrite <- (Zle_Qle 1); lia).
  assert (HH2 : (inject_Z h < 9007199254740992)%Q)
    by (change 9007199254740992%Q with (inject_Z (2 ^ 53)); rewrite <- Zlt_Qlt; lia).
  set (H := inject_Z h) in *.
  assert (Hxh : (xh == H * ratio)%Q) by (unfold xh; by rewrite HfH).
  assert (HE : (E == H * rho)%Q) by (unfold E, rho; fold H W; field; lra).
  assert (A1 : (H * (rho * (1 - (1 # 9007199254740992))) <= H * ratio)%Q)
    by (apply Qmult_le_l; lra).
  assert (A2 : (H * ratio <= H * (rho * (1 + (1 # 9007199254740992))))%Q)
    by (apply Qmult_le_l; lra).
  assert (A3 : (H * ratio <= H)%Q) by nra.
  assert (A0 : (0 < H * rho)%Q) by nra.
  destruct (round64_relative xh) as [Q1 Q2].
  { rewrite Hxh. eapply Qle_trans; [|exact A1]. nra. }
  assert (HxhH : (round64 xh <= H)%Q).
  { apply round64_le_int.
    - rewrite Hxh. nra.
    - rewrite Hxh. eapply Qle_lt_trans; [exact A3|].
      rewrite pow2_Z by lia. change (inject_Z (2 ^ 53)) with 9007199254740992%Q. done.
    - by rewrite Hxh. }
  set (ph := round64 xh) in *.
  rewrite Hxh, H53 in Q1, Q2.
  assert (Hpos : (0 <= ph)%Q) by nra.
  rewrite py_int_floor by done.
  pose proof (Qfloor_le ph) as F1. pose proof (Qlt_floor ph) as F2.
  rewrite inject_Z_plus in F2. change (inject_Z 1) with 1%Q in F2.
  split; [split|].
  - rewrite <- (Qfloor_Z 0). by apply Qfloor_resp_le.
  - rewrite <- (Qfloor_Z h). by apply Qfloor_resp_le.
  - rewrite HE.
    setoid_replace (H * (rho * (1 - (1 # 9007199254740992))))%Q
      with (H * rho * (1 - (1 # 9007199254740992)))%Q using relation Qeq in A1 by ring.
    setoid_replace (H * (rho * (1 + (1 # 9007199254740992))))%Q
      with (H * rho * (1 + (1 # 9007199254740992)))%Q using relation Qeq in A2 by ring.
    split; lra.
Qed.

(** X22: the size of what [process_single_image] encodes.  An image
    that decodes is either answered by a null payload and a warning (a
    call of PIL raised) or encoded: at its own size when its width is at
    most 1200, and otherwise at the size the float computation gives,
    whose width is 1199 or 1200 and whose height is at most the original
    height and within 1, up to a relative error of [2^-51], of
    [h * 1200 / w].  [convert] and [resize] are taken to answer an image
    of the size they are asked for. *)
Theorem process_single_image_dimensions
    (image_data : list Byte.byte) (rel_id : string) (im : image) (w h : Z) :
  (forall im0 mode im1, image_convert im0 mode = Some im1 -> img_size im1 = img_size im0) ->
  (forall im0 size im1, image_resize im0 size = Some im1 -> img_size im1 = size) ->
  image_open image_data = Some im ->
  img_size im = (w, h) -> (w < 2 ^ 53)%Z -> (0 <= h < 2 ^ 53)%Z ->
  process_single_image image_data rel_id
  = ((rel_id, None), [(WARNING, "Failed to process image"%string, rel_id)]) \/
  exists (im' : image) (format_type : string) (final_data : list Byte.byte) (w' h' : Z),
    process_single_image image_data rel_id
    = ((rel_id,
        Some (lit "data:"
              ++ (if String.eqb format_type "JPEG" then lit "image/jpeg" else lit "image/png")
              ++ lit ";base64," ++ b64encode final_data)), []) /\
    image_save im' format_type = Some final_data /\
    img_size im' = (w', h') /\
    ((w <= 1200)%Z -> w' = w /\ h' = h) /\
    ((1200 < w)%Z ->
       (w', h') = new_size w h /\
       (1199 <= w' <= 1200)%Z /\ (0 <= h' <= h)%Z /\
       (inject_Z h * 1200 / inject_Z w * (1 - (1 # 2251799813685248)) - 1 < inject_Z h')%Q /\
       (inject_Z h' <= inject_Z h * 1200 / inject_Z w * (1 + (1 # 2251799813685248)))%Q).
Proof.
  intros Hconv Hres Hopen Hs Hw Hh. unfold process_single_image.
  destruct (encode image_data) as [url|] eqn:E; [right|by left].
  destruct (encode_Some _ _ E) as (im0 & im1 & im2 & fmt & final & Ho & Hc & Hr & Hsave & ->).
  rewrite Hopen in Ho. injection Ho as <-.
  assert (Hs1 : img_size im1 = (w, h)).
  { destruct (_ || _); destruct Hc as [Hc _]; [by subst|]. by rewrite (Hconv _ _ _ Hc). }
  rewrite Hs1 in Hr. cbn [fst snd] in Hr. unfold MAX_IMAGE_WIDTH in Hr.
  destruct (Z.ltb_spec 1200 w) as [Hlt|Hle].
  - pose proof (new_size_bounds w h ltac:(unfold MAX_IMAGE_WIDTH; lia) Hh) as (B1 & B2 & B3 & B4).
    apply Hres in Hr.
    exists im2, fmt, final, (new_size w h).1, (new_size w h).2.
    split; [done|]. split; [done|]. split; [by rewrite Hr; destruct (new_size w h)|].
    split; [lia|]. intros _. split; [by destruct (new_size w h)|]. done.
  - subst im2. exists im1, fmt, final, w, h.
    split; [done|]. split; [done|]. split; [done|]. split; [done|lia].
Qed.

(** ** A failed image *)

Lemma process_single_image_failed (image_data : list Byte.byte) (rel_id : string) :
  image_open image_data = None ->
  process_single_image image_data rel_id
  = ((rel_id, None), [(WARNING, "Failed to process image"%string, rel_id)]).
Proof. intros H. unfold process_single_image, encode. by rewrite H. Qed.

Lemma process_single_image_rid (image_data : list Byte.byte) (rel_id : string) :
  (process_single_image image_data rel_id).1.1 = rel_id.
Proof. unfold process_single_image. by destruct (encode image_data). Qed.

(** The tasks of a failing image leave the dictionary as if they had not
    been submitted. *)
Lemma collect_skip_failed (rid : string) (tasks : list (list Byte.byte * string)) :
  (forall t, t ∈ tasks -> t.2 = rid -> image_open t.1 = None) ->
  forall results : gmap string str,
    (collect tasks results).1
    = (collect (filter (fun t => t.2 <> rid) tasks) results).1.
Proof.
  induction tasks as [|[blob r] tasks IH]; intros Hfail results; [done|].
  rewrite filter_cons. cbn [snd]. case_decide as Hr.
  - cbn [collect]. destruct (process_single_image blob r) as [[r' data_url] lg].
    rewrite (surjective_pairing (collect tasks _)).
    rewrite (surjective_pairing (collect (filter _ tasks) _)). cbn [fst].
    apply IH. intros t Ht. apply Hfail. by right.
  - subst r. cbn [collect].
    rewrite process_single_image_failed by (apply (Hfail (blob, rid)); [left|done]).
    rewrite (surjective_pairing (collect tasks _)). cbn [fst].
    apply IH. intros t Ht. apply Hfail. by right.
Qed.

Lemma collect_lookup_failed (rid : string) (tasks : list (list Byte.byte * string)) :
  (forall t, t ∈ tasks -> t.2 = rid -> image_open t.1 = None) ->
  forall results : gmap string str,
    (collect tasks results).1 !! rid = results !! rid.
Proof.
  induction tasks as [|[blob r] tasks IH]; intros Hfail results; [done|].
  cbn [collect]. pose proof (process_single_image_rid blob r) as Hrid.
  pose proof (process_single_image_failed blob r) as Hf.
  destruct (process_single_image blob r) as [[r' data_url] lg]. cbn in Hrid. subst r'.
  rewrite (surjective_pairing (collect tasks _)). cbn [fst].
  rewrite IH by (intros t Ht; apply Hfail; by right).
  destruct data_url as [[|c u]|]; try done.
  destruct (decide (r = rid)) as [->|Hne]; [|by rewrite lookup_insert_ne].
  discriminate Hf. by apply (Hfail (blob, rid)); [left|].
Qed.

Lemma collect_log_failed (rid : string) (tasks : list (list Byte.byte * string))
    (results : gmap string str) (blob : list Byte.byte) :
  (blob, rid) ∈ tasks -> image_open blob = None ->
  (WARNING, "Failed to process image"%string, rid) ∈ (collect tasks results).2.
Proof.
  revert results. induction tasks as [|[b r] tasks IH]; intros results Hin Hfail.
  - by apply elem_of_nil in Hin.
  - cbn [collect]. apply elem_of_cons in Hin as [Heq|Hin].
    + injection Heq as <- <-. rewrite process_single_image_failed by done.
      rewrite (surjective_pairing (collect tasks _)). cbn [snd]. by left.
    + destruct (process_single_image b r) as [[r' data_url] lg].
      rewrite (surjective_pairing (collect tasks _)). cbn [snd].
      apply elem_of_app. right. by apply IH.
Qed.

Lemma extract_images_dict (doc : document) :
  (extract_images_from_doc doc).1 = (collect (image_tasks doc) ∅).1.
Proof.
  unfold extract_images_from_doc. fold (image_tasks doc).
  destruct (image_tasks doc) as [|t tasks]; [done|].
  by destruct (collect (t :: tasks) ∅).
Qed.

Lemma image_tasks_without (rid : string) (doc : document) :
  image_tasks (without_image rid doc) = filter (fun t => t.2 <> rid) (image_tasks doc).
Proof.
  unfold image_tasks, without_image. cbn [doc_rels].
  induction (doc_rels doc) as [|rel rels IH]; [done|].
  rewrite !filter_cons. repeat case_decide; cbn [map];
    rewrite ?filter_cons; cbn [snd]; repeat case_decide; try done;
    cbn [map]; by rewrite IH.
Qed.

Lemma image_containers_without (images : gmap string str) (rid : string) (r : run) :
  images !! rid = None ->
  image_containers images r = image_containers images (without_drawings rid r).
Proof.
  intros Hnone. unfold image_containers, without_drawings. cbn [run_drawings].
  induction (run_drawings r) as [|d ds IH]; [done|].
  rewrite filter_cons. case_decide as Hd.
  - cbn [flat_map]. by rewrite IH.
  - unfold refers_to in Hd. cbn [flat_map]. rewrite Hd, Hnone, <- IH.
    by destruct (negb _).
Qed.

Lemma image_tasks_failed (doc : document) (rid : string) :
  (forall rel, rel ∈ doc_rels doc -> is_image_rel rel = true -> rId rel = rid ->
               image_open (target_blob rel) = None) ->
  forall t, t ∈ image_tasks doc -> t.2 = rid -> image_open t.1 = None.
Proof.
  intros Hfail t Ht Hrid. unfold image_tasks in Ht.
  apply list_elem_of_In, in_map_iff in Ht as (rel & <- & Hrel).
  apply list_elem_of_In, list_elem_of_filter in Hrel as [Himg Hrel].
  by apply Hfail.
Qed.

Lemma extract_images_log (doc : document) (rel : relationship) :
  rel ∈ doc_rels doc -> is_image_rel rel = true ->
  image_open (target_blob rel) = None ->
  (WARNING, "Failed to process image"%string, rId rel) ∈ (extract_images_from_doc doc).2.
Proof.
  intros Hrel Himg Hfail.
  assert (Ht : (target_blob rel, rId rel) ∈ image_tasks doc).
  { unfold image_tasks. apply list_elem_of_In, in_map_iff. exists rel.
    split; [done|]. by apply list_elem_of_In, list_elem_of_filter. }
  unfold extract_images_from_doc. fold (image_tasks doc).
  destruct (image_tasks doc) as [|t tasks] eqn:Et; [by apply elem_of_nil in Ht|].
  pose proof (collect_log_failed (rId rel) (t :: tasks) ∅ _ Ht Hfail) as Hlog.
  destruct (collect (t :: tasks) ∅) as [results lg]. cbn [snd] in *.
  apply elem_of_app. right. apply elem_of_app. by left.
Qed.

(** A container is emitted only together with its image. *)
Lemma image_containers_hold_image (images : gmap string str) (r : run) (e : element) :
  e ∈ image_containers images r ->
  is_image_container e /\
  exists src, el_children e = [E_IMG src (lit "Document Image")].
Proof.
  unfold image_containers. intros He.
  apply list_elem_of_In, in_flat_map in He as (d & _ & He).
  destruct (blip_embed d) as [[rid|]|]; try (by destruct He).
  destruct (negb _); [|by destruct He].
  destruct (images !! rid) as [src|]; [|by destruct He].
  destruct He as [<-|[]]. split; [done|]. by exists src.
Qed.

(** ** The text of a run *)

Lemma with_styles_span (styles : list str) (t : str) :
  el_tag (with_styles styles (E_SPAN t)) = "span"%string /\
  el_text (with_styles styles (E_SPAN t)) = t /\
  el_children (with_styles styles (E_SPAN t)) = [] /\
  text_content (with_styles styles (E_SPAN t)) = t /\
  attr_get "style" (el_attrib (with_styles styles (E_SPAN t)))
  = match styles with [] => None | st => Some (join (lit "; ") st) end.
Proof.
  destruct styles as [|s0 styles]; cbn; rewrite app_nil_r; done.
Qed.

Lemma adopt_span (dummy : element) (styles : list str) :
  el_tag (adopt dummy (with_styles styles (E_SPAN []))) = "span"%string /\
  el_attrib (adopt dummy (with_styles styles (E_SPAN [])))
  = el_attrib (with_styles styles (E_SPAN [])) /\
  text_content (adopt dummy (with_styles styles (E_SPAN []))) = text_content dummy.
Proof.
  destruct dummy as [t a x c l]. destruct styles as [|s0 styles]; cbn;
    by destruct x.
Qed.


(** If lxml reads a fragment the way the plain-text projection does, the
    text of a run without '<' comes out character for character. *)
Lemma text_elements_preserve (r : run) (ratio : Q) :
  (forall fragment dummy,
      html_fromstring (lit "<div>" ++ fragment ++ lit "</div>") = Some dummy ->
      text_content dummy = plain_text fragment) ->
  markup_free (run_text r) ->
  concat (map text_content (text_elements r ratio)) = run_text r.
Proof.
  intros Hparse Hfree. unfold text_elements.
  destruct (run_text r) as [|c t] eqn:Et; [done|].
  pose proof (with_styles_span (run_styles r) (c :: t)) as (_ & _ & _ & Htc & _).
  destruct (process_text_node (c :: t) ratio) as [[|c' html]|] eqn:Ep;
    cbn [map concat]; rewrite ?app_nil_r; try done.
  destruct (html_fromstring _) as [dummy|] eqn:Ed;
    cbn [map concat]; rewrite ?app_nil_r; try done.
  apply Hparse in Ed.
  rewrite (process_text_node_projects (c :: t) _ ratio Hfree Ep) in Ed.
  by destruct (adopt_span dummy (run_styles r)) as (_ & _ & ->).
Qed.


End ConverterFacts.

(** ** The orchestrator *)

Section RendererFacts.
Context {C : Collaborators}.
Import Renderer.

Lemma render_chunk_renders (c : str) (w : world) (pages : list page) :
  write_pdf c = Some (Pdf pages) ->
  render_chunk c w
  = (Some (fresh (dom (tmp_dir w))),
     set_tmp_dir (insert (fresh (dom (tmp_dir w))) (Pdf pages)) w).
Proof.
  intros H. unfold render_chunk, mkstemp. rewrite H. f_equal.
  unfold set_tmp_dir. cbn. f_equal. apply insert_insert_eq.
Qed.

Lemma pool_inv_init (chunks : list str) (w0 : world) :
  pool_inv chunks w0 [] (replicate (length chunks) None, w0).
Proof.
  unfold pool_inv. rewrite length_replicate.
  repeat split; try done; intros; exfalso; eapply not_elem_of_nil; eauto.
Qed.

Lemma pool_step_inv (chunks : list str) (w0 : world) (done : list nat)
    (st : list (option nat) * world) (i : nat) :
  Forall renders chunks ->
  pool_inv chunks w0 done st -> i ∉ done -> i < length chunks ->
  pool_inv chunks w0 (done ++ [i]) (pool_step chunks st i).
Proof.
  intros Hren Hinv Hi Hlt. destruct st as [slots w].
  destruct Hinv as (Hlen & Huf & Hdone & Hinj & Hrest).
  unfold pool_step. destruct (chunks !! i) as [c|] eqn:Ec;
    [|apply lookup_ge_None in Ec; lia].
  destruct (proj1 (Forall_lookup _ _) Hren i c Ec) as [pages Hw].
  rewrite (render_chunk_renders c w pages Hw).
  set (p := fresh (dom (tmp_dir w))).
  assert (Hp : tmp_dir w !! p = None) by (apply not_elem_of_dom, is_fresh).
  assert (Hpj : forall j, j ∈ done -> slots !! j <> Some (Some p)).
  { intros j Hj Hs. destruct (Hdone j Hj) as (p' & c' & _ & Hs' & Hf & _).
    rewrite Hs in Hs'. injection Hs' as <-. congruence. }
  assert (Hp0 : tmp_dir w0 !! p = None) by (rewrite <- (Hrest p Hpj); exact Hp).
  assert (Hne : forall j, j ∈ done -> i <> j) by (intros j Hj ->; done).
  unfold pool_inv. cbn [tmp_dir user_files set_tmp_dir].
  split; [by rewrite length_insert|]. split; [done|]. split; [|split].
  - intros k [Hk|Hk%list_elem_of_singleton]%elem_of_app.
    + destruct (Hdone k Hk) as (p' & c' & Hc' & Hs' & Hf & H0).
      exists p', c'. split; [done|].
      split; [by rewrite list_lookup_insert_ne by auto|]. split; [|done].
      rewrite lookup_insert_ne; [done|]. intros <-. congruence.
    + subst k. exists p, c. split; [done|].
      split; [apply list_lookup_insert_eq; lia|]. split; [|done].
      rewrite lookup_insert_eq. unfold rendered_pages. by rewrite Hw.
  - intros k j q [Hk|Hk%list_elem_of_singleton]%elem_of_app
                 [Hj|Hj%list_elem_of_singleton]%elem_of_app; subst.
    + rewrite !list_lookup_insert_ne by auto. by apply Hinj.
    + rewrite list_lookup_insert_ne by auto.
      rewrite list_lookup_insert_eq by lia. intros Hs [= <-]. by apply Hpj in Hs.
    + rewrite list_lookup_insert_eq by lia.
      rewrite list_lookup_insert_ne by auto. intros [= <-] Hs. by apply Hpj in Hs.
    + done.
  - intros q Hq. assert (q <> p).
    { intros ->. apply (Hq i); [apply elem_of_app; right; by left|].
      apply list_lookup_insert_eq. lia. }
    rewrite lookup_insert_ne by done. apply Hrest. intros j Hj Hs.
    apply (Hq j); [apply elem_of_app; by left|].
    by rewrite list_lookup_insert_ne by auto.
Qed.

Lemma pool_fold_inv (chunks : list str) (w0 : world) (rest : list nat) :
  Forall renders chunks ->
  forall (done : list nat) (st : list (option nat) * world),
    pool_inv chunks w0 done st ->
    NoDup (done ++ rest) -> (forall i, i ∈ rest -> i < length chunks) ->
    pool_inv chunks w0 (done ++ rest) (fold_left (pool_step chunks) rest st).
Proof.
  intros Hren. induction rest as [|i rest IH]; intros done st Hinv Hnd Hlt.
  - by rewrite app_nil_r.
  - cbn [fold_left]. replace (done ++ i :: rest) with ((done ++ [i]) ++ rest)
      by (by rewrite <- app_assoc).
    apply IH.
    + apply pool_step_inv; [done..| |].
      * apply NoDup_app in Hnd as (_ & Hd & _). intros Hi.
        apply (Hd i Hi). by left.
      * apply Hlt. by left.
    + by rewrite <- app_assoc.
    + intros j Hj. apply Hlt. by right.
Qed.

(** Whatever the order in which the workers finish, [pool.map] returns
    the temporary paths in the order of the chunks. *)
Lemma pool_map_ordered (order : list nat) (chunks : list str) (w0 : world) :
  order ≡ₚ seq 0 (length chunks) -> Forall renders chunks ->
  exists (slots : list (option nat)) (w : world),
    pool_map order chunks w0 = (slots, w) /\
    user_files w = user_files w0 /\
    NoDup slots /\
    Forall2 (fun slot c => exists p, slot = Some p /\
               tmp_dir w !! p = Some (Pdf (rendered_pages c))) slots chunks /\
    (forall p, tmp_dir w0 !! p = if decide (Some p ∈ slots) then None else tmp_dir w !! p).
Proof.
  intros Hperm Hren.
  assert (Hall : forall i, i ∈ order <-> i < length chunks).
  { intros i. rewrite Hperm, elem_of_seq. lia. }
  pose proof (pool_fold_inv chunks w0 order Hren [] _ (pool_inv_init chunks w0)) as H.
  cbn [app] in H. unfold pool_map.
  destruct (fold_left (pool_step chunks) order _) as [slots w].
  destruct H as (Hlen & Huf & Hdone & Hinj & Hrest).
  { rewrite Hperm. apply NoDup_seq. }
  { intros i. apply Hall. }
  assert (Hsome : forall i x, slots !! i = Some x -> exists p, x = Some p).
  { intros i x Hx. destruct (Hdone i) as (p & c & _ & Hs & _).
    - apply Hall. rewrite <- Hlen. by apply lookup_lt_Some in Hx.
    - exists p. congruence. }
  exists slots, w. split; [done|]. split; [done|]. split; [|split].
  - apply NoDup_alt. intros i j x Hi Hj.
    destruct (Hsome i x Hi) as [p ->].
    apply (Hinj i j p); [| |done..]; apply Hall; rewrite <- Hlen;
      eapply lookup_lt_Some; eauto.
  - apply Forall2_same_length_lookup. split; [done|]. intros i x c Hx Hc.
    destruct (Hdone i) as (p & c' & Hc' & Hs & Hf & _).
    { apply Hall. by apply lookup_lt_Some in Hc. }
    exists p. split; congruence.
  - intros p. case_decide as Hin.
    + apply list_elem_of_lookup in Hin as [i Hi].
      destruct (Hdone i) as (p' & c' & _ & Hs & _ & H0).
      { apply Hall. rewrite <- Hlen. by apply lookup_lt_Some in Hi. }
      congruence.
    + symmetry. apply Hrest. intros i _ Hs. apply Hin.
      apply list_elem_of_lookup. eauto.
Qed.

Lemma merge_loop_merges (slots : list (option nat)) (chunks : list str) :
  forall (doc : list page) (w : world),
    Forall2 (fun slot c => exists p, slot = Some p /\
               tmp_dir w !! p = Some (Pdf (rendered_pages c))) slots chunks ->
    NoDup slots ->
    exists w',
      merge_loop slots doc w = (Ok (doc ++ concat (map rendered_pages chunks)), w') /\
      user_files w' = user_files w /\
      (forall p, tmp_dir w' !! p
                 = if decide (Some p ∈ slots) then None else tmp_dir w !! p).
Proof.
  revert chunks. induction slots as [|slot slots IH]; intros chunks doc w HF Hnd.
  - apply Forall2_nil_inv_l in HF as ->. exists w. cbn.
    rewrite app_nil_r. repeat split; try done.
  - apply Forall2_cons_inv_l in HF as (c & chunks' & (p & -> & Hp) & HF & ->).
    apply NoDup_cons in Hnd as [Hnotin Hnd].
    cbn [merge_loop]. unfold bind at 1. unfold fitz_open. rewrite Hp.
    unfold bind at 1. unfold os_remove, modify.
    set (w1 := set_tmp_dir (delete p) w).
    destruct (IH chunks' (doc ++ rendered_pages c) w1) as (w' & Hm & Huf & Htmp).
    + apply Forall2_same_length_lookup.
      apply Forall2_same_length_lookup in HF as [Hlen HF]. split; [done|].
      intros i x y Hx Hy. destruct (HF i x y Hx Hy) as (q & -> & Hq).
      exists q. split; [done|]. subst w1. cbn.
      rewrite lookup_delete_ne; [done|]. intros ->. apply Hnotin.
      apply list_elem_of_lookup. eauto.
    + done.
    + exists w'. split; [|split].
      * rewrite Hm. cbn [map concat]. by rewrite app_assoc.
      * by rewrite Huf.
      * intros q. rewrite Htmp. subst w1. cbn.
        destruct (decide (q = p)) as [->|Hne].
        -- rewrite lookup_delete_eq. case_decide; [done|].
           rewrite decide_True; [done|by left].
        -- rewrite lookup_delete_ne by done.
           case_decide as H1.
           ++ rewrite decide_True; [done|by right].
           ++ rewrite decide_False; [done|].
              intros [[= ->]|H2]%elem_of_cons; done.
Qed.

Lemma slots_all_some (slots : list (option nat)) (chunks : list str) (w : world) :
  Forall2 (fun slot c => exists p, slot = Some p /\
             tmp_dir w !! p = Some (Pdf (rendered_pages c))) slots chunks ->
  existsb is_none slots = false.
Proof. induction 1 as [|slot c slots chunks (p & -> & _) _ IH]; [done|]. apply IH. Qed.

(** C5: when every chunk renders and the save succeeds, then for every
    order in which the workers finish, the destination holds the pages of
    the chunks in the order of the chunks (chunk 0 first), and the
    temporary directory is back to what it was. *)
Theorem render_pdf_merge_order (order : list nat) (html_chunks : list str)
    (output_path : string) (w : world) :
  order ≡ₚ seq 0 (length html_chunks) ->
  Forall renders html_chunks ->
  fitz_save (concat (map rendered_pages html_chunks)) = Saved ->
  exists w',
    render_pdf order html_chunks output_path w = (Ok true, w') /\
    user_files w'
    = <[output_path := Pdf (concat (map rendered_pages html_chunks))]> (user_files w) /\
    tmp_dir w' = tmp_dir w.
Proof.
  intros Hperm Hren Hsave.
  set (w1 := add_log [(INFO, "Rendering chunks in parallel..."%string, ""%string)] w).
  destruct (pool_map_ordered order html_chunks w1 Hperm Hren)
    as (slots & w2 & Hpm & Huf2 & Hnd & HF & Htmp2).
  set (w3 := add_log [(INFO, "Merging chunks..."%string, ""%string)] w2).
  destruct (merge_loop_merges slots html_chunks [] w3 HF Hnd)
    as (w4 & Hm & Huf4 & Htmp4).
  cbn [app] in Hm.
  eexists. split.
  - unfold render_pdf, finally, try_except.
    unfold bind at 1. unfold logger at 1, modify. fold w1.
    unfold bind at 1. rewrite Hpm.
    rewrite (slots_all_some _ _ _ HF).
    unfold bind at 1, ret at 1. unfold bind at 1, logger at 1, modify. fold w3.
    unfold bind at 1. rewrite Hm.
    unfold bind at 1, doc_save. rewrite Hsave.
    unfold bind at 1, logger, modify, ret. reflexivity.
  - cbn [user_files tmp_dir add_log set_user_files]. split.
    + rewrite Huf4. subst w3. cbn. rewrite Huf2. by subst w1.
    + apply map_eq. intros p. rewrite Htmp4. subst w3. cbn [tmp_dir add_log].
      specialize (Htmp2 p). subst w1. cbn in Htmp2. rewrite Htmp2.
      by case_decide.
Qed.

(** ** What a failure leaves behind *)

Lemma render_chunk_user_files (c : str) (w : world) :
  user_files (render_chunk c w).2 = user_files w.
Proof. unfold render_chunk, mkstemp. by destruct (write_pdf c). Qed.

Lemma pool_map_user_files (order : list nat) (chunks : list str) (w : world) :
  user_files (pool_map order chunks w).2 = user_files w.
Proof.
  unfold pool_map. generalize (replicate (length chunks) (@None nat)) as slots.
  revert w. induction order as [|i order IH]; intros w slots; [done|].
  cbn [fold_left]. unfold pool_step at 2.
  destruct (chunks !! i) as [c|]; [|apply IH].
  pose proof (render_chunk_user_files c w) as H.
  destruct (render_chunk c w) as [r w']. cbn in H. by rewrite IH.
Qed.

Lemma merge_loop_user_files (slots : list (option nat)) :
  forall (doc : list page) (w : world),
    user_files (merge_loop slots doc w).2 = user_files w.
Proof.
  induction slots as [|slot slots IH]; intros doc w; [done|].
  cbn [merge_loop]. unfold bind at 1, fitz_open.
  destruct slot as [p|]; [|done].
  destruct (tmp_dir w !! p) as [[]|]; try done.
  unfold bind at 1, os_remove, modify. by rewrite IH.
Qed.

(** C4 (amended): the merged document is assembled in memory and saved
    to the destination path by one direct [doc.save], issued after every
    chunk has been inserted; so when [render_pdf] fails with anything but
    a failure of that save, the files named by the caller, the
    destination among them, are what they were: nothing is created and
    nothing is modified. *)
Theorem render_pdf_failure_before_save (order : list nat) (html_chunks : list str)
    (output_path : string) (w w' : world) (e : exn) :
  render_pdf order html_chunks output_path w = (Raise e, w') ->
  e <> FitzSaveError ->
  user_files w' = user_files w.
Proof.
  unfold render_pdf, finally, try_except.
  unfold bind at 1. unfold logger at 1, modify.
  set (w1 := add_log _ w). unfold bind at 1.
  pose proof (pool_map_user_files order html_chunks w1) as Hpm.
  destruct (pool_map order html_chunks w1) as [slots w2]. cbn [snd] in Hpm.
  destruct (existsb is_none slots).
  - unfold bind at 1, raise at 1. unfold bind at 1, logger, modify, raise.
    intros [= <- <-] _. cbn. by rewrite Hpm.
  - unfold bind at 1, ret at 1. unfold bind at 1, logger at 1, modify.
    set (w3 := add_log _ w2). unfold bind at 1.
    pose proof (merge_loop_user_files slots [] w3) as Hm.
    destruct (merge_loop slots [] w3) as [[doc|e'] w4]; cbn [snd] in Hm.
    + unfold bind at 1, doc_save. destruct (fitz_save doc).
      * unfold bind, logger, modify, ret. discriminate.
      * unfold bind, logger, modify, raise. intros [= <- <-]. done.
      * unfold bind, logger, modify, raise. intros [= <- <-]. done.
    + unfold bind, logger, modify, raise. intros [= <- <-] _. cbn.
      rewrite Hm. subst w3. cbn. by rewrite Hpm.
Qed.

Lemma render_chunk_new_file (c : str) (w : world) :
  let '(r, w') := render_chunk c w in
  (r = None <-> write_pdf c = None) /\
  tmp_dir w ⊆ tmp_dir w' /\
  size (tmp_dir w') = S (size (tmp_dir w)).
Proof.
  unfold render_chunk, mkstemp. set (p := fresh (dom (tmp_dir w))).
  assert (Hp : tmp_dir w !! p = None) by (apply not_elem_of_dom, is_fresh).
  destruct (write_pdf c) as [f|]; cbn.
  - rewrite insert_insert_eq. split; [done|].
    split; [by apply insert_subseteq|by apply map_size_insert_None].
  - split; [done|].
    split; [by apply insert_subseteq|by apply map_size_insert_None].
Qed.

(** [pool.map] leaves one temporary file per task, whether the task
    succeeded or not, and answers [None] exactly for the chunks that did
    not render. *)
Lemma pool_fold_files (chunks : list str) (rest : list nat) :
  forall (done : list nat) (slots : list (option nat)) (w : world),
    length slots = length chunks ->
    (forall i, i ∈ rest -> i < length chunks) ->
    (forall i c, i ∈ done -> chunks !! i = Some c ->
       exists r, slots !! i = Some r /\ (r = None <-> write_pdf c = None)) ->
    let '(slots', w') := fold_left (pool_step chunks) rest (slots, w) in
    (forall i c, i ∈ done ++ rest -> chunks !! i = Some c ->
       exists r, slots' !! i = Some r /\ (r = None <-> write_pdf c = None)) /\
    tmp_dir w ⊆ tmp_dir w' /\
    size (tmp_dir w') = size (tmp_dir w) + length rest.
Proof.
  induction rest as [|i rest IH]; intros done slots w Hlen Hlt Hdone.
  - cbn. rewrite app_nil_r. split; [done|]. split; [done|lia].
  - cbn [fold_left]. unfold pool_step at 2.
    destruct (chunks !! i) as [c|] eqn:Ec.
    2:{ apply lookup_ge_None in Ec. specialize (Hlt i ltac:(by left)). lia. }
    pose proof (render_chunk_new_file c w) as Hrc.
    destruct (render_chunk c w) as [r w1]. destruct Hrc as (Hr & Hsub & Hsize).
    assert (Hi : i < length slots) by (rewrite Hlen; apply Hlt; by left).
    specialize (IH (done ++ [i]) (<[i:=r]> slots) w1).
    destruct (fold_left (pool_step chunks) rest (<[i:=r]> slots, w1)) as [slots' w'].
    destruct IH as (H1 & H2 & H3).
    + by rewrite length_insert.
    + intros j Hj. apply Hlt. by right.
    + intros j c' [Hj|Hj%list_elem_of_singleton]%elem_of_app Hc'.
      * destruct (decide (i = j)) as [->|Hne].
        -- exists r. split; [by apply list_lookup_insert_eq|]. congruence.
        -- rewrite list_lookup_insert_ne by done. by apply Hdone.
      * subst j. exists r. split; [by apply list_lookup_insert_eq|]. congruence.
    + split; [|split].
      * intros j c' Hj. apply H1. by rewrite <- app_assoc.
      * by etrans.
      * rewrite H3, Hsize. cbn [length]. lia.
Qed.

(** X23: what happens when a chunk does not render: [render_pdf]
    raises, the files named by the caller are untouched, and every
    temporary file made by the workers is still there. *)
Lemma render_pdf_render_failure (order : list nat) (html_chunks : list str)
    (output_path : string) (w : world) (c : str) :
  order ≡ₚ seq 0 (length html_chunks) ->
  c ∈ html_chunks -> write_pdf c = None ->
  exists w',
    render_pdf order html_chunks output_path w = (Raise ChunkRenderFailed, w') /\
    user_files w' = user_files w /\
    tmp_dir w ⊆ tmp_dir w' /\
    size (tmp_dir w') = size (tmp_dir w) + length html_chunks.
Proof.
  intros Hperm [i Hi]%list_elem_of_lookup Hfail.
  unfold render_pdf, finally, try_except.
  unfold bind at 1. unfold logger at 1, modify.
  set (w1 := add_log _ w). unfold bind at 1.
  pose proof (pool_map_user_files order html_chunks w1) as Huf.
  pose proof (pool_fold_files html_chunks order []
                (replicate (length html_chunks) None) w1) as H.
  unfold pool_map in *.
  destruct (fold_left (pool_step html_chunks) order _) as [slots w2].
  cbn [snd] in Huf. destruct H as (Hslots & Hsub & Hsize).
  { apply length_replicate. }
  { intros j. rewrite Hperm, elem_of_seq. lia. }
  { intros j c' Hj. by apply elem_of_nil in Hj. }
  assert (Hnone : existsb is_none slots = true).
  { destruct (Hslots i c) as (r & Hr & Hnone); [|done|].
    - cbn [app]. rewrite Hperm, elem_of_seq. apply lookup_lt_Some in Hi. lia.
    - apply existsb_exists. exists r. split; [|by rewrite (proj2 Hnone Hfail)].
      apply list_elem_of_In, list_elem_of_lookup. eauto. }
  rewrite Hnone. unfold bind, raise, logger, modify.
  eexists. split; [reflexivity|]. cbn [user_files tmp_dir add_log].
  split; [by rewrite Huf|]. split; [done|].
  rewrite Hsize. subst w1. cbn [tmp_dir add_log].
  by rewrite Hperm, length_seq.
Qed.

End RendererFacts.

(** ** The job *)

Section CliFacts.
Context {U : CharClass} {P : Pil} {X : Lxml} {C : Collaborators}.
Import Processor ImageHandler Converter Renderer Cli.

(** The exit status is 0 when the input exists, the conversion returns a
    document and the rendering of its chunks returns. *)
Lemma main_exit_zero (a : args) (schedule : nat -> list nat) (w w' : world)
    (doc : document) (b : bool) :
  is_Some (user_files w !! arg_input a) ->
  load_document (arg_input a) = Some doc ->
  let out := pdf_to_html doc (html_head (arg_font a) doc) html_tail (arg_bold_ratio a) in
  render_pdf (schedule (length out.1)) out.1 (output_path a) (add_log out.2 w)
  = (Ok b, w') ->
  (main a schedule w).1 = 0%Z.
Proof.
  intros [f Hf] Hload out Hrender. unfold main. rewrite Hf.
  unfold bind at 1. unfold convert_to_chunks. rewrite Hload.
  fold out. destruct out as [chunks lg]. cbn [fst snd] in Hrender.
  unfold bind at 1, modify. unfold ret at 1. unfold bind at 1.
  rewrite Hrender. done.
Qed.

(** The exit status is 1 when the rendering raises. *)
Lemma main_exit_one (a : args) (schedule : nat -> list nat) (w w' : world)
    (doc : document) (e : exn) :
  is_Some (user_files w !! arg_input a) ->
  load_document (arg_input a) = Some doc ->
  let out := pdf_to_html doc (html_head (arg_font a) doc) html_tail (arg_bold_ratio a) in
  render_pdf (schedule (length out.1)) out.1 (output_path a) (add_log out.2 w)
  = (Raise e, w') ->
  (main a schedule w).1 = 1%Z.
Proof.
  intros [f Hf] Hload out Hrender. unfold main. rewrite Hf.
  unfold bind at 1. unfold convert_to_chunks. rewrite Hload.
  fold out. destruct out as [chunks lg]. cbn [fst snd] in Hrender.
  unfold bind at 1, modify. unfold ret at 1. unfold bind at 1.
  rewrite Hrender. done.
Qed.

(** C7 (amended): when the bytes of the image [rid] do not decode, the
    normalisation answers null for it and logs a warning, the dictionary
    has no entry for it, the chunks are those of the document without
    that image, and the job exits with status 0 if its conversion and
    rendering do.  The drawings of the image contribute no element at
    all: a container is emitted only with its image inside, never
    empty. *)
Theorem image_decode_failure_degrades (doc : document) (rid : string) :
  (exists rel, rel ∈ doc_rels doc /\ is_image_rel rel = true /\ rId rel = rid) ->
  (forall rel, rel ∈ doc_rels doc -> is_image_rel rel = true -> rId rel = rid ->
               image_open (target_blob rel) = None) ->
  let '(images, lg) := extract_images_from_doc doc in
  (forall rel, rel ∈ doc_rels doc -> is_image_rel rel = true -> rId rel = rid ->
     process_single_image (target_blob rel) rid
     = ((rid, None), [(WARNING, "Failed to process image"%string, rid)])) /\
  images !! rid = None /\
  (WARNING, "Failed to process image"%string, rid) ∈ lg /\
  (forall r, image_containers images r = image_containers images (without_drawings rid r)) /\
  (forall r e, e ∈ image_containers images r ->
     is_image_container e /\ exists src, el_children e = [E_IMG src (lit "Document Image")]) /\
  (forall head tail ratio,
     (pdf_to_html doc head tail ratio).1
     = (pdf_to_html (without_image rid doc) head tail ratio).1) /\
  (forall a schedule w w' b,
     is_Some (user_files w !! arg_input a) ->
     load_document (arg_input a) = Some doc ->
     let out := pdf_to_html doc (html_head (arg_font a) doc) html_tail (arg_bold_ratio a) in
     render_pdf (schedule (length out.1)) out.1 (output_path a) (add_log out.2 w)
     = (Ok b, w') ->
     (main a schedule w).1 = 0%Z).
Proof.
  intros (rel0 & Hrel0 & Himg0 & Hrid0) Hfail.
  pose proof (image_tasks_failed doc rid Hfail) as Htasks.
  pose proof (extract_images_dict doc) as Hdict.
  pose proof (extract_images_log doc rel0 Hrel0 Himg0 (Hfail rel0 Hrel0 Himg0 Hrid0)) as Hlog.
  assert (Hsame : (extract_images_from_doc doc).1
                  = (extract_images_from_doc (without_image rid doc)).1).
  { rewrite !extract_images_dict, image_tasks_without.
    by apply collect_skip_failed. }
  destruct (extract_images_from_doc doc) as [images lg] eqn:Ex.
  cbn [fst snd] in *. rewrite Hrid0 in Hlog.
  assert (Hnone : images !! rid = None).
  { rewrite Hdict, collect_lookup_failed by done. apply lookup_empty. }
  split; [|split; [|split; [|split; [|split; [|split]]]]].
  - intros rel Hrel Himg Hrid. apply process_single_image_failed. by apply Hfail.
  - done.
  - done.
  - intros r. by apply image_containers_without.
  - intros r e. apply image_containers_hold_image.
  - intros head tail ratio. unfold pdf_to_html. rewrite Ex.
    destruct (extract_images_from_doc (without_image rid doc)) as [images' lg'].
    cbn [fst] in *. by subst images'.
  - intros a schedule w w' b. apply main_exit_zero.
Qed.

End CliFacts.

(** ** Closed instances *)

Import Processor.

(** C1 as stated fails on a white-space text (no fragment is returned) and
    on a text with the characters of an end tag. *)
Lemma process_text_node_roundtrip_counterexample :
  plain_text <$> process_text_node (U:=ascii_tables) (lit " ") (1#2) <> Some (lit " ") /\
  plain_text <$> process_text_node (U:=ascii_tables) (lit "</b>") (1#2) <> Some (lit "</b>").
Proof. split; vm_compute; discriminate. Qed.

(** The round trip on "reading fast" at ratio 1/2. *)
Lemma process_text_node_roundtrip_witness :
  exists out,
    process_text_node (U:=ascii_tables) (lit "reading fast") (1#2) = Some out /\
    plain_text out = lit "reading fast".
Proof.
  destruct (process_text_node_roundtrip (U:=ascii_tables) (lit "reading fast") (1#2))
    as [_ H].
  - by vm_compute.
  - by vm_compute.
  - by vm_compute.
  - apply H.
    + intros Hb. apply Forall_inv in Hb. vm_compute in Hb. discriminate.
    + unfold markup_free. vm_compute. repeat constructor; discriminate.
Defined.

(** C2 as stated fails at ratio 1, where the split point is the length,
    and its formula fails under both readings of the ratio: [5 * 0.6] is
    rounded to 3.0 although the float 0.6 is below 6/10, and [50 * 0.58]
    is below 29 although 50 times 58/100 is 29. *)
Lemma wrap_word_split_counterexample :
  ~ (1 <= split_point (lit "ab") 1 < length (lit "ab")) /\
  (split_point (lit "hello") (round64 (6 # 10)) = 3 /\
   Z.max 1 (Qfloor (inject_Z 5 * round64 (6 # 10))) = 2%Z) /\
  (split_point (replicate 50 97%N) (round64 (58 # 100)) = 28 /\
   Z.max 1 (Qfloor (inject_Z 50 * (58 # 100))) = 29%Z).
Proof. split; [vm_compute; lia|]. split; split; by vm_compute. Qed.

(** The word "reading" at ratio 1/2: [k = 3], "rea" and "ding". *)
Lemma wrap_word_split_witness :
  let word := lit "reading" in
  let L := length word in
  let k := split_point word (1#2) in
  Z.of_nat k = Z.max 1 (py_int (fmul (float_of_int (Z.of_nat L)) (1#2))) /\
  (Z.max 1 (Qfloor (inject_Z (Z.of_nat L) * (1#2))) <= Z.of_nat k
   <= Z.max 1 (Qceiling (inject_Z (Z.of_nat L) * (1#2))))%Z /\
  1 <= k <= L /\
  ((1#2 < 1)%Q -> k < L) /\
  ((1#2 == 1)%Q -> k = L) /\
  wrap_word word (1#2)
  = prefix_open ++ take k word ++ span_close
    ++ rest_open ++ drop k word ++ span_close /\
  length (take k word) = k /\ length (drop k word) = L - k.
Proof.
  apply (wrap_word_split (lit "reading") (1#2)).
  - vm_compute. lia.
  - by vm_compute.
  - by vm_compute.
  - by vm_compute.
  - by vm_compute.
Defined.

Import ImageHandler Converter Renderer Cli.

(** 250 blocks make [ceil(250 / 100) = 3] chunks. *)
Lemma pdf_to_html_chunk_count_witness :
  Z.of_nat (length (pdf_to_html (U:=ascii_tables) (P:=example_pil) (X:=example_lxml)
                      document_250 (lit "<body>") (lit "</body>") (1#2)).1)
  = Qceiling (inject_Z (Z.of_nat 250) / 100).
Proof.
  apply (pdf_to_html_chunk_count (U:=ascii_tables) (P:=example_pil) (X:=example_lxml)
           document_250 (lit "<body>") (lit "</body>") (1#2)).
  vm_compute. lia.
Defined.

Lemma example_pil_convert (im0 : image (Pil:=example_pil)) (mode : string)
    (im1 : image (Pil:=example_pil)) :
  image_convert im0 mode = Some im1 -> img_size im1 = img_size im0.
Proof. by intros [= <-]. Qed.

Lemma example_pil_resize (im0 : image (Pil:=example_pil)) (size : Z * Z)
    (im1 : image (Pil:=example_pil)) :
  image_resize im0 size = Some im1 -> img_size im1 = size.
Proof. cbn. destruct (_ && _); [by intros [= <-]|done]. Qed.

(** C10: an image of 2400 x 1 decodes and is wider than 1200, so the
    claim has it scaled to 1200 wide.  The code computes the ratio 0.5
    and the size [(int(2400 * 0.5), int(1 * 0.5)) = (1200, 0)]; [resize]
    refuses a height of 0, the exception is caught, and the image is
    answered by a null payload and a warning: it is not scaled. *)
Theorem process_single_image_flat :
  let image_data := [Byte.x09; Byte.x60; Byte.x00] in
  img_size <$> image_open (Pil:=example_pil) image_data = Some (2400, 1)%Z /\
  new_size 2400 1 = (1200, 0)%Z /\
  image_resize (Pil:=example_pil)
    {| pic_mode := "RGB"; pic_transparency := false; pic_size := (2400, 1)%Z |}
    (new_size 2400 1) = None /\
  process_single_image (P:=example_pil) image_data "rId1"
  = (("rId1"%string, None), [(WARNING, "Failed to process image"%string, "rId1"%string)]).
Proof. repeat split; by vm_compute. Qed.

(** An image of 2191 x 2191 is encoded at 1199 x 1199: the quotient
    [1200 / 2191] is rounded down and the product falls below 1200. *)
Lemma process_single_image_dimensions_witness :
  let image_data := Byte.x08 :: Byte.x8f :: replicate 2191 Byte.x00 in
  exists (im' : image (Pil:=example_pil)) (format_type : string)
         (final_data : list Byte.byte) (w' h' : Z),
    process_single_image (P:=example_pil) image_data "rId1"
    = (("rId1"%string,
        Some (lit "data:"
              ++ (if String.eqb format_type "JPEG" then lit "image/jpeg" else lit "image/png")
              ++ lit ";base64," ++ b64encode (Pil:=example_pil) final_data)), []) /\
    image_save im' format_type = Some final_data /\
    img_size im' = (w', h') /\
    (w', h') = (1199, 1199)%Z.
Proof.
  intros image_data.
  destruct (process_single_image_dimensions (P:=example_pil)
              image_data "rId1"
              {| pic_mode := "RGB"; pic_transparency := false; pic_size := (2191, 2191)%Z |}
              2191 2191)
    as [H|(im' & fmt & final & w' & h' & H1 & H2 & H3 & _ & H4)].
  - apply example_pil_convert.
  - apply example_pil_resize.
  - by vm_compute.
  - reflexivity.
  - by vm_compute.
  - by vm_compute.
  - vm_compute in H. discriminate.
  - exists im', fmt, final, w', h'. split; [done|]. split; [done|]. split; [done|].
    destruct H4 as [-> _]; [lia|]. by vm_compute.
Defined.

(** [round64] against the Standard Library's IEEE 754 on the operations
    of the examples: the doubles 0.6 and 0.58, the products [5 * 0.6] and
    [50 * 0.58], and the scaling of the widths 2191 and 58800. *)
Lemma round64_binary64 :
  let d06 := b64_div (b64_of_Z 6) (b64_of_Z 10) in
  let d058 := b64_div (b64_of_Z 58) (b64_of_Z 100) in
  let ratio (w : Z) := b64_div (b64_of_Z 1200) (b64_of_Z w) in
  b64_value d06 = Some (round64 (6 # 10)) /\
  b64_value d058 = Some (round64 (58 # 100)) /\
  b64_value (b64_mul (b64_of_Z 5) d06)
  = Some (fmul (float_of_int 5) (round64 (6 # 10))) /\
  b64_value (b64_mul (b64_of_Z 50) d058)
  = Some (fmul (float_of_int 50) (round64 (58 # 100))) /\
  b64_value (ratio 2191%Z) = Some (fdiv 1200 (float_of_int 2191)) /\
  b64_value (b64_mul (b64_of_Z 2191) (ratio 2191%Z))
  = Some (fmul (float_of_int 2191) (fdiv 1200 (float_of_int 2191))) /\
  b64_value (b64_mul (b64_of_Z 49) (ratio 58800%Z))
  = Some (fmul (float_of_int 49) (fdiv 1200 (float_of_int 58800))).
Proof. repeat split; by vm_compute. Qed.

(** The sizes the float computation gives: the width can come out as
    1199, and an image 1200 times wider than high can come out flat. *)
Lemma new_size_examples :
  new_size 2400 1000 = (1200, 500)%Z /\
  new_size 2191 2191 = (1199, 1199)%Z /\
  new_size 58800 49 = (1200, 0)%Z.
Proof. repeat split; by vm_compute. Qed.


(** C8: the text of a run that holds the characters of an end tag reaches
    the parser as markup.  The fragment handed to [html.fromstring] starts
    with the run's own "</", unescaped; its plain text is "b>", not the
    text of the run; and the emitted span holds whatever the parser makes
    of the fragment. *)
Theorem text_elements_end_tag {X : Lxml} :
  let fragment :=
    lit "</<span class=" ++ dq ++ lit "bionic-prefix" ++ dq ++ lit ">b</span>>" in
  process_text_node (U:=ascii_tables) (lit "</b>") (1#2) = Some fragment /\
  plain_text fragment = lit "b>" /\
  text_elements (U:=ascii_tables) (X:=X) (plain_run (lit "</b>")) (1#2)
  = match html_fromstring (Lxml:=X) (lit "<div>" ++ fragment ++ lit "</div>") with
    | Some dummy =>
        [Element "span" [("style"%string, lit "font-weight: bold")]
                 (el_text dummy) (el_children dummy) []]
    | None =>
        [Element "span" [("style"%string, lit "font-weight: bold")] (lit "</b>") [] []]
    end.
Proof.
  intros fragment.
  assert (Hp : process_text_node (U:=ascii_tables) (lit "</b>") (1#2) = Some fragment)
    by (by vm_compute).
  split; [done|]. split; [by vm_compute|].
  unfold text_elements.
  change (run_text (plain_run (lit "</b>"))) with (lit "</b>").
  rewrite Hp. cbn -[html_fromstring fragment].
  destruct (html_fromstring _) as [dummy|]; [|done].
  unfold adopt. cbn. by destruct (el_text dummy).
Qed.

(** C7 as stated fails: the paragraph of the broken image has no child at
    all, so no container, empty or not. *)
Lemma image_decode_failure_counterexample :
  ~ exists e,
      e ∈ el_children
            (build_paragraph_element (U:=ascii_tables) (X:=example_lxml)
               picture_paragraph
               (extract_images_from_doc (P:=example_pil) broken_image_document).1 (1#2))
      /\ is_image_container e.
Proof. intros (e & He & _). vm_compute in He. by apply elem_of_nil in He. Qed.

(** The document whose only image does not decode: a warning, no entry, no
    element for the drawing, exit status 0. *)
Lemma image_decode_failure_degrades_witness :
  let '(images, lg) := extract_images_from_doc (P:=example_pil) broken_image_document in
  process_single_image (P:=example_pil) [] "rId1"
  = (("rId1"%string, None), [(WARNING, "Failed to process image"%string, "rId1"%string)]) /\
  images !! "rId1"%string = None /\
  (WARNING, "Failed to process image"%string, "rId1"%string) ∈ lg /\
  image_containers images picture_run = [] /\
  (main (U:=ascii_tables) (P:=example_pil) (X:=example_lxml)
        (C:=example_collaborators broken_image_document Saved)
        example_args (fun n => reverse (seq 0 n)) example_world).1 = 0%Z.
Proof.
  pose proof (image_decode_failure_degrades
                (U:=ascii_tables) (P:=example_pil) (X:=example_lxml)
                (C:=example_collaborators broken_image_document Saved)
                broken_image_document "rId1") as H.
  destruct (extract_images_from_doc (P:=example_pil) broken_image_document)
    as [images lg].
  destruct H as (Hnull & Hnone & Hlog & Hdraw & _ & _ & Hexit).
  - eexists. split; [by left|]. by split.
  - intros rel ->%list_elem_of_singleton _ _. reflexivity.
  - split; [|split; [done|split; [done|split]]].
    + apply (Hnull _ ltac:(by left)); reflexivity.
    + by rewrite (Hdraw picture_run).
    + eapply (Hexit example_args (fun n => reverse (seq 0 n)) example_world _ true).
      * by eexists.
      * reflexivity.
      * vm_compute. reflexivity.
Defined.

(** C3: the scenario of the specification.  A document of 250 blocks gives
    three chunks; the renderer fails on the second.  The job exits with
    status 1 and no destination file exists, but the three temporary files
    of the workers are still in the temporary directory: the two rendered
    PDFs and the empty file of the failed worker. *)
Theorem render_failure_leaves_temp_files :
  let C := example_collaborators document_250 Saved in
  let chunks := (pdf_to_html (U:=ascii_tables) (P:=example_pil) (X:=example_lxml)
                   document_250 (lit "<body>") (lit "</body>") (1#2)).1 in
  let '(status, w') :=
    main (U:=ascii_tables) (P:=example_pil) (X:=example_lxml) (C:=C)
         example_args (fun n => reverse (seq 0 n)) example_world in
  map (fun c => is_none (write_pdf (Collaborators:=C) c)) chunks = [false; true; false] /\
  status = 1%Z /\
  user_files w' !! output_path (C:=C) example_args = None /\
  size (tmp_dir example_world) = 0 /\
  size (tmp_dir w') = 3 /\
  tmp_dir w' !! 0 = Some (Pdf [1263]) /\
  tmp_dir w' !! 1 = Some Blank /\
  tmp_dir w' !! 2 = Some (Pdf [2513]).
Proof. vm_compute. repeat split. Qed.

(** C4 as stated fails: [doc.save] writes to the destination itself, so a
    save that is interrupted leaves a truncated destination file. *)
Lemma render_pdf_atomic_write_counterexample :
  let r := render_pdf (C:=example_collaborators document_250 Interrupted)
             [0] [lit "page"] "out.pdf" example_world in
  r.1 = Raise FitzSaveError /\
  user_files example_world !! "out.pdf"%string = None /\
  user_files r.2 !! "out.pdf"%string = Some Truncated.
Proof. vm_compute. repeat split. Qed.

(** A chunk that does not render: the files named by the caller are
    untouched. *)
Lemma render_pdf_failure_before_save_witness :
  user_files (render_pdf (C:=example_collaborators document_250 Saved)
                [0] [[9%N]] "out.pdf" example_world).2
  = user_files example_world.
Proof.
  apply (render_pdf_failure_before_save (C:=example_collaborators document_250 Saved)
           [0] [[9%N]] "out.pdf" example_world _ ChunkRenderFailed).
  - vm_compute. reflexivity.
  - discriminate.
Defined.

(** Three chunks whose workers finish in the order 2, 0, 1: the pages are
    saved in the order 0, 1, 2. *)
Lemma render_pdf_merge_order_witness :
  exists w',
    render_pdf (C:=example_collaborators document_250 Saved)
      [2; 0; 1] [lit "a"; lit "bb"; lit "ccc"] "out.pdf" example_world = (Ok true, w') /\
    user_files w'
    = <["out.pdf"%string := Pdf [1; 2; 3]]> (user_files example_world) /\
    tmp_dir w' = tmp_dir example_world.
Proof.
  apply (render_pdf_merge_order (C:=example_collaborators document_250 Saved)
           [2; 0; 1] [lit "a"; lit "bb"; lit "ccc"] "out.pdf" example_world).
  - apply (Permutation_cons_append [0; 1] 2).
  - repeat constructor; eexists; reflexivity.
  - reflexivity.
Defined.

(* ================================================================== *)
(** * Further properties of the code *)

(** ** processor.py *)

Section ProcessorMore.
Context {U : CharClass}.
Import Processor.

Lemma wrap_word_embeds (word : str) (r : Q) : word `sublist_of` wrap_word word r.
Proof.
  unfold wrap_word. destruct (length word =? 1).
  - apply sublist_inserts_l, sublist_inserts_r. done.
  - rewrite <- (take_drop (split_point word r) word) at 1.
    apply sublist_inserts_l, sublist_app; [done|].
    apply sublist_inserts_l, sublist_inserts_l, sublist_inserts_r. done.
Qed.

Lemma word_loop_embeds (text : str) (r : Q) (ms : list (nat * nat)) :
  forall (last : nat) (acc : list str),
    ordered last ms (length text) ->
    let '(last', new_html) := word_loop text r ms last acc in
    last <= last' <= length text /\
    exists out : str,
      concat new_html = concat acc ++ out /\
      slice text last last' `sublist_of` out.
Proof.
  induction ms as [|[a b] ms IH]; intros last acc Hord.
  - cbn in *. split; [lia|]. exists []. split; [by rewrite app_nil_r|].
    unfold slice. by rewrite Nat.sub_diag, take_0.
  - cbn [word_loop]. cbn in Hord. destruct Hord as (Hla & Hab & Hord).
    set (acc1 := if last <? a then acc ++ [slice text last a] else acc).
    specialize (IH b (acc1 ++ [wrap_word (slice text a b) r]) Hord).
    destruct (word_loop text r ms b _) as [last' new_html].
    destruct IH as (Hb & out & Hcat & Hout).
    split; [lia|].
    exists (slice text last a ++ wrap_word (slice text a b) r ++ out). split.
    + rewrite Hcat, concat_app. cbn [concat]. rewrite app_nil_r.
      subst acc1. destruct (Nat.ltb_spec last a).
      * rewrite concat_app. cbn [concat]. by rewrite app_nil_r, <- !app_assoc.
      * replace a with last by lia. unfold slice at 2.
        by rewrite Nat.sub_diag, take_0, <- app_assoc.
    + rewrite <- (slice_join text last a last') by lia.
      rewrite <- (slice_join text a b last') by lia.
      apply sublist_app; [done|]. apply sublist_app; [|done].
      apply wrap_word_embeds.
Qed.

(** X1: the transform only inserts.  Whatever the text holds (markup
    characters included) and whatever the ratio, the text is embedded in
    the fragment returned for it: its characters are all there, in their
    order, with the markup of the spans between them. *)
Theorem process_text_node_embeds (t out : str) (r : Q) :
  process_text_node t r = Some out -> t `sublist_of` out.
Proof.
  unfold process_text_node.
  destruct (strip t); [done|].
  pose proof (word_loop_embeds t r (finditer_words t) 0 []
                (finditer_words_ordered t)) as H.
  destruct (word_loop t r (finditer_words t) 0 []) as [last new_html].
  destruct H as (Hlast & frag & Hcat & Hfrag). cbn [concat app] in Hcat.
  intros [= <-].
  destruct (Nat.ltb_spec last (length t)).
  - rewrite concat_app, Hcat. cbn [concat]. rewrite app_nil_r.
    rewrite <- (slice_to_end t last) at 1. by apply sublist_app.
  - rewrite Hcat. by rewrite slice_all in Hfrag by lia.
Qed.

Lemma scan_words_no_words (s : str) (pos : nat) :
  Forall (fun c => is_word_char c = false) s -> scan_words s pos None = [].
Proof.
  intros H. revert pos. induction H as [|c s Hc _ IH]; intros pos; cbn; [done|].
  by rewrite Hc.
Qed.

Lemma scan_words_one_word (s : str) (pos st : nat) :
  Forall (fun c => is_word_char c = true) s ->
  scan_words s pos (Some st) = [(st, pos + length s)].
Proof.
  intros H. revert pos. induction H as [|c s Hc _ IH]; intros pos; cbn.
  - by rewrite Nat.add_0_r.
  - rewrite Hc, IH. do 2 f_equal. lia.
Qed.

(** X2: a text that has no word character (punctuation, white space) and
    is not blank is returned as it is, without any span. *)
Theorem process_text_node_no_words (t : str) (r : Q) :
  Forall (fun c => is_word_char c = false) t -> ~ blank t ->
  process_text_node t r = Some t.
Proof.
  intros Hno Hnb. unfold process_text_node, finditer_words.
  destruct (strip t) as [|c0 s0] eqn:Es; [by apply strip_nil in Es|].
  rewrite scan_words_no_words by done. cbn [word_loop].
  destruct t as [|c t]; [exfalso; apply Hnb; constructor|].
  cbn [length Nat.ltb Nat.leb drop app concat]. by rewrite app_nil_r.
Qed.

(** X3: a text that is one word from end to end is returned as the two
    spans of that word. *)
Theorem process_text_node_one_word (t : str) (r : Q) :
  Forall (fun c => is_word_char c = true) t -> ~ blank t ->
  process_text_node t r = Some (wrap_word t r).
Proof.
  intros Hw Hnb. unfold process_text_node, finditer_words.
  destruct (strip t) as [|c0 s0] eqn:Es; [by apply strip_nil in Es|].
  destruct t as [|c t]; [exfalso; apply Hnb; constructor|].
  inversion Hw as [|? ? Hc Ht]; subst.
  cbn [scan_words]. rewrite Hc, scan_words_one_word by done.
  cbn [word_loop]. rewrite Nat.ltb_irrefl.
  replace (slice (c :: t) 0 (1 + length t)) with (c :: t).
  2:{ symmetry. apply slice_all. cbn. lia. }
  cbn [app length]. rewrite Nat.ltb_irrefl. cbn [concat app]. by rewrite app_nil_r.
Qed.

End ProcessorMore.

(** ** image_handler.py *)

Section ImageMore.
Context {P : Pil}.
Import ImageHandler.

(** The entry of [rid] after the loop over the futures, when the tasks of
    that id all carry the same bytes and these give the URL [url]. *)
Lemma collect_lookup_unique (rid : string) (blob : list Byte.byte) (url : str)
    (tasks : list (list Byte.byte * string)) :
  (forall t, t ∈ tasks -> t.2 = rid -> t.1 = blob) ->
  (process_single_image blob rid).1.2 = Some url ->
  forall results : gmap string str,
    (collect tasks results).1 !! rid
    = if decide (rid ∈ tasks.*2) then Some url else results !! rid.
Proof.
  intros Hsame Hurl.
  destruct (process_single_image_url _ _ _ Hurl) as (c & u & -> & Hp).
  induction tasks as [|[b r] tasks IH]; intros results.
  - cbn. by rewrite decide_False by apply not_elem_of_nil.
  - cbn [collect]. pose proof (process_single_image_rid b r) as Hrid.
    destruct (process_single_image b r) as [[r' data_url] lg] eqn:Eb.
    cbn in Hrid. subst r'.
    rewrite (surjective_pairing (collect tasks _)). cbn [fst].
    rewrite IH by (intros t Ht; apply Hsame; by right).
    cbn [fmap list_fmap snd].
    destruct (decide (r = rid)) as [->|Hne].
    + rewrite (decide_True (P:=rid ∈ rid :: _)) by left.
      assert (b = blob) as -> by (apply (Hsame (b, rid)); [left|done]).
      rewrite Hp in Eb. injection Eb as <- <-.
      case_decide; [done|]. by rewrite lookup_insert_eq.
    + case_decide as Hin.
      * by rewrite decide_True by (by right).
      * rewrite decide_False by (intros [?|?]%elem_of_cons; congruence).
        destruct data_url as [[|c' u']|]; try done. by rewrite lookup_insert_ne.
Qed.

(** Every entry was produced by one of the tasks. *)
Lemma collect_lookup_sound (tasks : list (list Byte.byte * string)) :
  forall (results : gmap string str) (rid : string) (url : str),
    (collect tasks results).1 !! rid = Some url ->
    results !! rid = Some url \/
    exists blob, (blob, rid) ∈ tasks /\ (process_single_image blob rid).1.2 = Some url.
Proof.
  induction tasks as [|[b r] tasks IH]; intros results rid url; [by left|].
  cbn [collect]. pose proof (process_single_image_rid b r) as Hrid.
  destruct (process_single_image b r) as [[r' data_url] lg] eqn:Eb.
  cbn in Hrid. subst r'.
  rewrite (surjective_pairing (collect tasks _)). cbn [fst].
  intros [Hres|(blob & Hin & Hu)]%IH.
  - destruct data_url as [[|c u]|]; try by left.
    destruct (decide (r = rid)) as [->|Hne].
    + rewrite lookup_insert_eq in Hres. injection Hres as <-.
      right. exists b. split; [left|]. by rewrite Eb.
    + rewrite lookup_insert_ne in Hres by done. by left.
  - right. exists blob. split; [by right|done].
Qed.

(** X8: the dictionary of images, for a document whose image
    relationships have distinct ids.  It holds [url] under [rid] exactly
    when the image relationship of id [rid] was processed to [url]: an
    image that decodes is there under its id, and nothing else is. *)
Theorem extract_images_lookup (doc : document) (rid : string) (url : str) :
  NoDup (image_tasks doc).*2 ->
  (extract_images_from_doc doc).1 !! rid = Some url <->
  exists rel, rel ∈ doc_rels doc /\ is_image_rel rel = true /\ rId rel = rid /\
              (process_single_image (target_blob rel) rid).1.2 = Some url.
Proof.
  intros Hnd. rewrite extract_images_dict. split.
  - intros [Hres|(blob & Hin & Hu)]%collect_lookup_sound; [by rewrite lookup_empty in Hres|].
    unfold image_tasks in Hin. apply list_elem_of_fmap in Hin as (rel & [= -> ->] & Hrel).
    apply list_elem_of_filter in Hrel as [Himg Hrel]. by exists rel.
  - intros (rel & Hrel & Himg & <- & Hu).
    assert (Hin : (target_blob rel, rId rel) ∈ image_tasks doc).
    { unfold image_tasks. apply list_elem_of_fmap. exists rel. split; [done|].
      by apply list_elem_of_filter. }
    rewrite (collect_lookup_unique (rId rel) (target_blob rel) url); [|  |done].
    + rewrite decide_True; [done|]. apply list_elem_of_fmap. by exists (target_blob rel, rId rel).
    + intros [b r] Ht Hr. cbn in Hr |- *. subst r.
      apply list_elem_of_lookup in Ht as [i Hi]. apply list_elem_of_lookup in Hin as [j Hj].
      assert (i = j).
      { apply (NoDup_lookup _ i j (rId rel) Hnd); rewrite list_lookup_fmap.
        - by rewrite Hi. - by rewrite Hj. }
      subst j. congruence.
Qed.

Lemma collect_warnings (tasks : list (list Byte.byte * string)) :
  forall results : gmap string str,
    length (filter is_warning (collect tasks results).2)
    = length (filter (fun t => (process_single_image t.1 t.2).1.2 = None) tasks).
Proof.
  induction tasks as [|[b r] tasks IH]; intros results; [done|].
  cbn [collect]. rewrite filter_cons. cbn [fst snd].
  assert (Hcases : (exists url, process_single_image b r = ((r, Some url), []))
                   \/ process_single_image b r
                      = ((r, None), [(WARNING, "Failed to process image"%string, r)])).
  { unfold process_single_image. destruct (encode b) as [url|]; [left; by exists url|by right]. }
  destruct Hcases as [[url ->]| ->].
  - rewrite (surjective_pairing (collect tasks _)). cbn [fst snd app].
    rewrite decide_False by done. destruct url; apply IH.
  - rewrite (surjective_pairing (collect tasks _)). cbn [fst snd app].
    rewrite filter_cons, decide_True by done. rewrite decide_True by done.
    cbn [length]. f_equal. apply IH.
Qed.

(** X9: one warning per image that is not processed.  The log of the
    extraction holds as many WARNING records as there are image
    relationships for which [process_single_image] answers no data URL
    (the decoding, the conversion, the scaling or the encoding raised):
    no failure is silent and none is reported twice. *)
Theorem extract_images_warnings (doc : document) :
  length (filter is_warning (extract_images_from_doc doc).2)
  = length (filter not_processed (doc_rels doc)).
Proof.
  assert (Hrels : forall rels : list relationship,
            length (filter (fun t : list Byte.byte * string =>
                              (process_single_image t.1 t.2).1.2 = None)
                      (map (fun rel => (target_blob rel, rId rel))
                           (filter (fun rel => is_image_rel rel = true) rels)))
            = length (filter not_processed rels)).
  { induction rels as [|rel rels IH]; [done|].
    rewrite !filter_cons.
    destruct (decide (is_image_rel rel = true)) as [Himg|Himg].
    - cbn [map]. rewrite filter_cons. cbn [fst snd].
      destruct (decide ((process_single_image (target_blob rel) (rId rel)).1.2 = None))
        as [Ho|Ho].
      + rewrite (decide_True (P:=not_processed rel)) by done. cbn [length]. by rewrite IH.
      + rewrite (decide_False (P:=not_processed rel)) by (by intros [_ ?]). apply IH.
    - rewrite (decide_False (P:=not_processed rel)) by (by intros [? _]). apply IH. }
  unfold extract_images_from_doc. rewrite <- Hrels.
  destruct (map _ (filter _ (doc_rels doc))) as [|t tasks] eqn:Et; [done|].
  pose proof (collect_warnings (t :: tasks) ∅) as Hw.
  destruct (collect (t :: tasks) ∅) as [results lg]. cbn [snd] in Hw |- *.
  rewrite <- Hw, !filter_app, !length_app. cbn [app].
  rewrite !filter_cons, filter_nil. rewrite !decide_False by done. cbn. lia.
Qed.

End ImageMore.

(** ** converter.py *)

Section ConverterMore.
Context {U : CharClass} {P : Pil} {X : Lxml}.
Import Processor ImageHandler Converter.

Lemma append_all (es : list element) (t : string) (a : list (string * str))
    (x : str) (c : list element) (l : str) :
  fold_left (fun p e => el_append e p) es (Element t a x c l) = Element t a x (c ++ es) l.
Proof.
  revert c. induction es as [|e es IH]; intros c; cbn.
  - by rewrite app_nil_r.
  - by rewrite IH, <- app_assoc.
Qed.

Lemma paragraph_fold (images : gmap string str) (r : Q) (runs : list run)
    (t : string) (a : list (string * str)) (x : str) (c : list element) (l : str) :
  fold_left (fun p_div rn =>
               fold_left (fun p e => el_append e p) (run_elements images r rn) p_div)
            runs (Element t a x c l)
  = Element t a x (c ++ flat_map (run_elements images r) runs) l.
Proof.
  revert c. induction runs as [|rn runs IH]; intros c; cbn [fold_left flat_map].
  - by rewrite app_nil_r.
  - by rewrite append_all, IH, <- app_assoc.
Qed.

(** X10: the element of a paragraph.  It is a [div] of class
    "paragraph" without text of its own; it carries a [style] for a
    centred or right-aligned paragraph only (a justified one gets none);
    its children are the elements of its runs, run after run, each run
    giving its images first, then its text, then its line break. *)
Theorem build_paragraph_element_shape (par : paragraph) (images : gmap string str) (r : Q) :
  build_paragraph_element par images r
  = Element "div"
      (("class"%string, lit "paragraph")
       :: match par_alignment par with
          | Some CENTER => [("style"%string, lit "text-align: center;")]
          | Some RIGHT => [("style"%string, lit "text-align: right;")]
          | _ => []
          end)
      []
      (flat_map (fun rn => image_containers images rn ++ text_elements rn r
                           ++ (if run_has_line_break rn then [E_BR] else []))
                (par_runs par))
      [].
Proof.
  unfold build_paragraph_element.
  destruct (par_alignment par) as [[]|];
    (etrans; [apply (paragraph_fold images r (par_runs par) "div" _ [] [] [])|reflexivity]).
Qed.

Lemma image_containers_anchors (images : gmap string str) (rn : run) :
  image_containers images (without_anchors rn) = image_containers images rn.
Proof.
  unfold image_containers. cbn [without_anchors run_drawings].
  induction (run_drawings rn) as [|d ds IH]; [done|].
  cbn [map flat_map blip_embed]. by rewrite IH.
Qed.

(** X11: the position of a floating image is read and never used.  The
    element built for a paragraph is the same with and without the
    anchors of its drawings: every image is laid out in the flow. *)
Theorem build_paragraph_element_ignores_anchors
    (par : paragraph) (images : gmap string str) (r : Q) :
  build_paragraph_element (paragraph_without_anchors par) images r
  = build_paragraph_element par images r.
Proof.
  unfold build_paragraph_element. cbn [paragraph_without_anchors par_alignment par_runs].
  destruct (match match par_alignment par with
                  | Some CENTER => lit "text-align: center;"
                  | Some RIGHT => lit "text-align: right;"
                  | _ => []
                  end with
            | [] => E_DIV (CLASS "paragraph")
            | _ => _
            end) as [t a x c l].
  rewrite !paragraph_fold. f_equal. f_equal.
  induction (par_runs par) as [|rn runs IH]; [done|].
  cbn [map flat_map]. rewrite IH. f_equal.
  unfold run_elements. by rewrite image_containers_anchors.
Qed.

Lemma chunk_html_concat (head tail : str) (g : list element) :
  chunk_html head tail g = head ++ concat (map html_tostring g) ++ tail.
Proof.
  unfold chunk_html. rewrite app_assoc. f_equal.
  generalize head. induction g as [|e g IH]; intros acc; cbn.
  - by rewrite app_nil_r.
  - by rewrite IH, <- app_assoc.
Qed.

(** X12: what the chunks hold.  Every chunk is the head, a middle and
    the tail, and the middles, put end to end in the order of the chunks,
    are the serialised blocks of the document in document order: no block
    is lost, repeated or moved by the chunking. *)
Theorem pdf_to_html_chunks_wrap (doc : document) (head tail : str) (r : Q) :
  exists middles : list str,
    (pdf_to_html doc head tail r).1 = map (fun m => head ++ m ++ tail) middles /\
    concat middles
    = concat (map html_tostring (body_content doc (extract_images_from_doc doc).1 r)).
Proof.
  unfold pdf_to_html. destruct (extract_images_from_doc doc) as [images lg]. cbn [fst].
  destruct (body_content doc images r) as [|e body] eqn:Eb.
  - exists [[]]. done.
  - destruct (make_chunks_partition head tail (e :: body) ltac:(done))
      as (groups & Hch & Hcat & _).
    exists (map (fun g => concat (map html_tostring g)) groups). split.
    + rewrite Hch, map_map. apply map_ext. intros g. apply chunk_html_concat.
    + rewrite <- Hcat. clear. induction groups as [|g groups IH]; [done|].
      cbn [map concat]. by rewrite IH, map_app, concat_app.
Qed.

(** X13: an image that is processed reaches the page.  For an image
    relationship with a non-empty id that no image relationship with
    other bytes shares and for which [process_single_image] answers a
    data URL, the dictionary holds the URL under the id, and every run
    with a drawing that refers to the id gets the container of class
    "image-container" holding the [img] whose [src] is that URL. *)
Theorem image_containers_resolved (doc : document) (rel : relationship) (url : str)
    (rn : run) (d : drawing) :
  rel ∈ doc_rels doc -> is_image_rel rel = true ->
  (forall rel', rel' ∈ doc_rels doc -> is_image_rel rel' = true ->
                rId rel' = rId rel -> target_blob rel' = target_blob rel) ->
  (process_single_image (target_blob rel) (rId rel)).1.2 = Some url ->
  rId rel <> ""%string ->
  d ∈ run_drawings rn -> refers_to (rId rel) d ->
  (extract_images_from_doc doc).1 !! rId rel = Some url /\
  Element "div" [("class"%string, lit "image-container")] []
    [Element "img" [("src"%string, url); ("alt"%string, lit "Document Image")] [] [] []] []
  ∈ image_containers (extract_images_from_doc doc).1 rn.
Proof.
  intros Hrel Himg Hsame Hu Hid Hd Href.
  assert (Hlook : (extract_images_from_doc doc).1 !! rId rel = Some url).
  { rewrite extract_images_dict.
    rewrite (collect_lookup_unique (rId rel) (target_blob rel) url); [| |done].
    - rewrite decide_True; [done|]. unfold image_tasks.
      apply list_elem_of_fmap. exists (target_blob rel, rId rel). split; [done|].
      apply list_elem_of_fmap. exists rel. split; [done|]. by apply list_elem_of_filter.
    - intros [b r'] Ht Hr. cbn in Hr |- *. subst r'. unfold image_tasks in Ht.
      apply list_elem_of_fmap in Ht as (rel' & [= -> Hr'] & Hrel').
      apply list_elem_of_filter in Hrel' as [Himg' Hrel']. by apply Hsame. }
  split; [done|].
  unfold image_containers. apply list_elem_of_In, in_flat_map. exists d.
  split; [by apply list_elem_of_In|].
  unfold refers_to in Href. rewrite Href.
  destruct (String.eqb_spec (rId rel) "") as [|_]; [done|]. cbn [negb].
  rewrite Hlook. by left.
Qed.

End ConverterMore.

(** ** converter.py: the dominant font size *)

Section FontsMore.
Context {X : Lxml}.
Import Fonts.















End FontsMore.

(** ** renderer.py *)

Section RendererMore.
Context {C : Collaborators}.
Import Renderer.

Lemma render_chunk_fresh (c : str) (w : world) (p : nat) :
  (render_chunk c w).1 = Some p -> tmp_dir w !! p = None.
Proof.
  unfold render_chunk, mkstemp. destruct (write_pdf c); cbn [fst]; [|done].
  intros [= <-]. apply not_elem_of_dom, is_fresh.
Qed.

Lemma render_chunk_log (c : str) (w : world) : log (render_chunk c w).2 = log w.
Proof. unfold render_chunk, mkstemp. by destruct (write_pdf c). Qed.

(** Whatever the order in which the workers finish, [pool.map] keeps the
    files that were there, stores only paths that were not in use, and
    logs nothing. *)
Lemma pool_fold_keeps (chunks : list str) (files : gmap nat content) (order : list nat) :
  forall (slots : list (option nat)) (w : world),
    files ⊆ tmp_dir w ->
    (forall p, Some p ∈ slots -> files !! p = None) ->
    let '(slots', w') := fold_left (pool_step chunks) order (slots, w) in
    files ⊆ tmp_dir w' /\
    (forall p, Some p ∈ slots' -> files !! p = None) /\
    log w' = log w.
Proof.
  induction order as [|i order IH]; intros slots w Hsub Hslots; [done|].
  cbn [fold_left]. unfold pool_step at 2.
  destruct (chunks !! i) as [c|]; [|by apply IH].
  pose proof (render_chunk_new_file c w) as Hnew.
  pose proof (render_chunk_fresh c w) as Hfresh.
  pose proof (render_chunk_log c w) as Hlog.
  destruct (render_chunk c w) as [r w1]. cbn [fst snd] in *.
  destruct Hnew as (_ & Hsub1 & _).
  specialize (IH (<[i:=r]> slots) w1).
  destruct (fold_left (pool_step chunks) order (<[i:=r]> slots, w1)) as [slots' w'].
  destruct IH as (H1 & H2 & H3).
  - by etrans.
  - intros p [j Hj]%list_elem_of_lookup.
    apply list_lookup_insert_Some in Hj as [(_ & Hr & _)|[_ Hj]].
    + eapply lookup_weaken_None; [by apply Hfresh|done].
    + apply Hslots, list_elem_of_lookup. eauto.
  - split; [done|]. split; [done|congruence].
Qed.

Lemma merge_loop_keeps (files : gmap nat content) (slots : list (option nat)) :
  forall (doc : list page) (w : world),
    files ⊆ tmp_dir w ->
    (forall p, Some p ∈ slots -> files !! p = None) ->
    files ⊆ tmp_dir (merge_loop slots doc w).2 /\
    log (merge_loop slots doc w).2 = log w.
Proof.
  induction slots as [|slot slots IH]; intros doc w Hsub Hslots; [done|].
  cbn [merge_loop]. unfold bind, fitz_open.
  destruct slot as [p|]; [|done].
  destruct (tmp_dir w !! p) as [[]|]; try done.
  unfold os_remove, modify. cbv beta iota.
  destruct (IH (doc ++ pages) (set_tmp_dir (delete p) w)) as [H1 H2];
    [| |by split].
  - cbn [set_tmp_dir tmp_dir]. apply map_subseteq_spec. intros q x Hq.
    assert (q <> p) by (intros ->; rewrite Hslots in Hq; [done|left]).
    rewrite lookup_delete_ne by done. by eapply lookup_weaken.
  - intros q Hq. apply Hslots. by right.
Qed.

(** X15: [render_pdf] works on files of its own.  Whatever the order in
    which the workers finish and however the call ends, every file that
    was in the temporary directory before the call is there after it,
    with the content it had: the only files removed are those the workers
    made. *)
Theorem render_pdf_keeps_temp_files (order : list nat) (html_chunks : list str)
    (output_path : string) (w : world) :
  tmp_dir w ⊆ tmp_dir (render_pdf order html_chunks output_path w).2.
Proof.
  unfold render_pdf, finally, try_except.
  unfold bind at 1. unfold logger at 1, modify.
  set (w1 := add_log _ w). unfold bind at 1.
  pose proof (pool_fold_keeps html_chunks (tmp_dir w) order
                (replicate (length html_chunks) None) w1) as Hpm.
  unfold pool_map.
  destruct (fold_left (pool_step html_chunks) order _) as [slots w2].
  destruct Hpm as (Hsub & Hslots & _); [done| |].
  { intros p [[=] _]%elem_of_replicate. }
  destruct (existsb is_none slots).
  - unfold bind, raise, logger, modify. done.
  - unfold bind at 1, ret at 1. unfold bind at 1, logger at 1, modify.
    set (w3 := add_log _ w2). unfold bind at 1.
    destruct (merge_loop_keeps (tmp_dir w) slots [] w3 Hsub Hslots) as [Hm _].
    destruct (merge_loop slots [] w3) as [[doc|e'] w4]; cbn [snd] in Hm.
    + unfold bind at 1, doc_save. destruct (fitz_save doc);
        unfold bind, logger, modify, ret, raise; done.
    + unfold bind, logger, modify, raise. done.
Qed.

Lemma merge_loop_raises (slots : list (option nat)) :
  forall (doc : list page) (w : world) (e : exn) (w' : world),
    merge_loop slots doc w = (Raise e, w') -> e = FitzOpenError.
Proof.
  induction slots as [|slot slots IH]; intros doc w e w'; [done|].
  cbn [merge_loop]. unfold bind at 1, fitz_open.
  destruct slot as [p|]; [|by intros [= <- _]].
  destruct (tmp_dir w !! p) as [[]|]; try by intros [= <- _].
  unfold bind at 1, os_remove, modify. apply IH.
Qed.

(** X16: what [render_pdf] logs and answers.  A call that returns
    answers [True] and has logged the start, the merge and the success;
    a call that raises has logged the start, the merge too unless it was
    a chunk that failed to render, and one ERROR record at the end.  It
    never returns [False], and records logged before the call stay. *)
Theorem render_pdf_log (order : list nat) (html_chunks : list str)
    (output_path : string) (w : world) :
  let '(res, w') := render_pdf order html_chunks output_path w in
  let started := (INFO, "Rendering chunks in parallel...", "")%string in
  let merging := (INFO, "Merging chunks...", "")%string in
  match res with
  | Ok b =>
      b = true /\
      log w' = log w ++ [started; merging; (INFO, "PDF generation successful.", "")%string]
  | Raise e =>
      e <> ConversionError /\
      log w' = log w ++ [started]
                ++ (match e with ChunkRenderFailed => [] | _ => [merging] end)
                ++ [(ERROR, "Failed to render PDF", "")%string]
  end.
Proof.
  unfold render_pdf, finally, try_except.
  unfold bind at 1. unfold logger at 1, modify.
  set (w1 := add_log _ w). unfold bind at 1.
  pose proof (pool_fold_keeps html_chunks ∅ order
                (replicate (length html_chunks) None) w1) as Hpm.
  unfold pool_map.
  destruct (fold_left (pool_step html_chunks) order _) as [slots w2].
  destruct Hpm as (_ & _ & Hlog2); [apply map_empty_subseteq|done|].
  destruct (existsb is_none slots).
  - unfold bind, raise, logger, modify. cbn. split; [done|].
    rewrite Hlog2. subst w1. cbn. by rewrite <- app_assoc.
  - unfold bind at 1, ret at 1. unfold bind at 1, logger at 1, modify.
    set (w3 := add_log _ w2). unfold bind at 1.
    destruct (merge_loop_keeps ∅ slots [] w3) as [_ Hm];
      [apply map_empty_subseteq|done|].
    pose proof (merge_loop_raises slots [] w3) as He.
    destruct (merge_loop slots [] w3) as [[doc|e'] w4] eqn:Em; cbn [snd] in Hm.
    + unfold bind at 1, doc_save. destruct (fitz_save doc);
        unfold bind, logger, modify, ret, raise; cbn;
        (split; [done|]); rewrite Hm; subst w3 w1; cbn; rewrite Hlog2; cbn;
        by rewrite <- !app_assoc.
    + rewrite (He e' w4 eq_refl).
      unfold bind, logger, modify, raise. cbn. split; [done|].
      rewrite Hm. subst w3 w1. cbn. rewrite Hlog2. cbn. by rewrite <- !app_assoc.
Qed.

End RendererMore.

(** ** utils.py *)

Section UtilsMore.
Import Utils.

Lemma setup_logging_again (later : list bool) :
  forall (lg : logger_config) (verbose : bool),
    logger_handlers lg <> [] ->
    logger_level lg = Some (if verbose then DEBUG else INFO) ->
    let lg' := fold_left (fun lg v => setup_logging v lg) later lg in
    logger_handlers lg' = logger_handlers lg /\
    logger_level lg' = Some (if default verbose (last later) then DEBUG else INFO).
Proof.
  induction later as [|v later IH]; intros lg verbose Hh Hl; [done|].
  cbn [fold_left]. destruct (IH (setup_logging v lg) v) as [H1 H2].
  - cbn. by destruct (logger_handlers lg).
  - done.
  - cbn zeta. rewrite H1, H2. split.
    + cbn. by destruct (logger_handlers lg).
    + rewrite last_cons. by destruct (last later).
Qed.

(** X18: calling [setup_logging] again.  After one call or more the
    logger has exactly one handler; its level is the level of the first
    call, while the level of the logger is that of the last call: a later
    call with another verbosity does not reach the handler. *)
Theorem setup_logging_repeated (verbose : bool) (later : list bool) :
  let lg := fold_left (fun lg v => setup_logging v lg) (verbose :: later) new_logger in
  logger_handlers lg = [if verbose then DEBUG else INFO] /\
  logger_level lg = Some (if default verbose (last later) then DEBUG else INFO).
Proof.
  cbn [fold_left].
  by destruct (setup_logging_again later (setup_logging verbose new_logger) verbose).
Qed.

End UtilsMore.

(** ** processor.py: the walk over the parsed page *)

Section ProcessorHtmlMore.
Context {U : CharClass} {B : Bs4}.
Import Processor ProcessorHtml.

Lemma bs_node_induction (Q : bs_node -> Prop) :
  (forall s, Q (BsString s)) ->
  (forall name attrs children, Forall Q children -> Q (BsTag name attrs children)) ->
  forall node, Q node.
Proof.
  intros Hs Ht. fix IH 1. intros [s|name attrs children]; [apply Hs|].
  apply Ht. induction children as [|c cs IHcs]; constructor; [apply IH|apply IHcs].
Qed.

(** X19: what the walk leaves alone.  A tree in which every string is
    blank or lies directly under a [script], [style] or [title] element
    comes out of [recurse_replace] as it went in: nothing is parsed and
    nothing is replaced. *)
Theorem recurse_replace_settled (bold_ratio : Q) (node : bs_node) :
  settled node -> recurse_replace bold_ratio node = node.
Proof.
  induction node as [s|name attrs children IH] using bs_node_induction; [done|].
  cbn [settled recurse_replace]. intros Hs. f_equal.
  induction IH as [|child children IHchild _ IHc]; [done|].
  destruct Hs as [Hc Hs]. cbn [flat_map]. rewrite (IHc Hs).
  destruct child as [s|n a c].
  - destruct (skipped name); [done|]. destruct Hc as [?|Hb]; [done|].
    by rewrite (proj2 (process_text_node_None_iff s bold_ratio) Hb).
  - by rewrite (IHchild Hc).
Qed.

End ProcessorHtmlMore.

(** ** The job from end to end *)

Section JobMore.
Context {U : CharClass} {P : Pil} {X : Lxml} {C : Collaborators}.
Import Processor ImageHandler Converter Renderer Cli.



End JobMore.

(** ** Closed instances of the further properties *)

Import Fonts Utils ProcessorHtml.

(** A text with markup characters is embedded in its fragment. *)
Lemma process_text_node_embeds_witness :
  exists out,
    process_text_node (U:=ascii_tables) (lit "a <b> c") (1#2) = Some out /\
    lit "a <b> c" `sublist_of` out.
Proof.
  eexists. split; [reflexivity|].
  apply (process_text_node_embeds (U:=ascii_tables) _ _ (1#2)). reflexivity.
Defined.

(** Punctuation alone is returned as it is. *)
Lemma process_text_node_no_words_witness :
  process_text_node (U:=ascii_tables) (lit "?!") (1#2) = Some (lit "?!").
Proof.
  apply (process_text_node_no_words (U:=ascii_tables)).
  - repeat constructor.
  - intros H. apply Forall_inv in H. vm_compute in H. discriminate.
Defined.

(** One word is returned as its two spans. *)
Lemma process_text_node_one_word_witness :
  process_text_node (U:=ascii_tables) (lit "reading") (1#2)
  = Some (wrap_word (lit "reading") (1#2)).
Proof.
  apply (process_text_node_one_word (U:=ascii_tables)).
  - repeat constructor.
  - intros H. apply Forall_inv in H. vm_compute in H. discriminate.
Defined.

(** The dictionary of a document with one image and one other
    relationship. *)
Lemma extract_images_lookup_witness :
  (extract_images_from_doc (P:=example_pil) image_document).1 !! "rId1"%string
  = Some (lit "data:image/jpeg;base64,AAAA") <->
  exists rel, rel ∈ doc_rels image_document /\ is_image_rel rel = true /\
              rId rel = "rId1"%string /\
              (process_single_image (P:=example_pil) (target_blob rel) "rId1").1.2
              = Some (lit "data:image/jpeg;base64,AAAA").
Proof.
  apply (extract_images_lookup (P:=example_pil) image_document).
  vm_compute. apply NoDup_singleton.
Defined.

(** The picture of [image_document] is in the elements of its run. *)
Lemma image_containers_resolved_witness :
  (extract_images_from_doc (P:=example_pil) image_document).1 !! "rId1"%string
    = Some (lit "data:image/jpeg;base64,AAAA") /\
  Element "div" [("class"%string, lit "image-container")] []
    [Element "img" [("src"%string, lit "data:image/jpeg;base64,AAAA");
                    ("alt"%string, lit "Document Image")] [] [] []] []
  ∈ image_containers (extract_images_from_doc (P:=example_pil) image_document).1 picture_run.
Proof.
  apply (image_containers_resolved (P:=example_pil) image_document
           {| reltype := "http://schemas.openxmlformats.org/officeDocument/2006/relationships/image";
              rId := "rId1"; target_blob := [Byte.x01; Byte.x02; Byte.x03] |}
           (lit "data:image/jpeg;base64,AAAA")
           picture_run
           {| blip_embed := Some (Some "rId1"%string); anchor_offset := None |}).
  - left.
  - reflexivity.
  - intros rel' [->|[->|[]%elem_of_nil]%elem_of_cons]%elem_of_cons; [done|discriminate].
  - vm_compute. reflexivity.
  - discriminate.
  - left.
  - reflexivity.
Defined.

(** A page of blank strings and style text goes through the walk
    unchanged. *)
Lemma recurse_replace_settled_witness :
  recurse_replace (U:=ascii_tables) (B:=example_bs4) (1#2) settled_page = settled_page.
Proof.
  apply (recurse_replace_settled (U:=ascii_tables) (B:=example_bs4)).
  cbn. split; [right; repeat constructor|].
  split; [split; [by left|done]|].
  split; [split; [right; repeat constructor|done]|done].
Defined.


(** Two chunks, the second with a tab: the call raises and the two
    files of the workers stay. *)
Lemma render_pdf_render_failure_witness :
  exists w',
    render_pdf (C:=example_collaborators document_250 Saved)
      [1; 0] [lit "a"; [9%N]] "out.pdf" example_world = (Raise ChunkRenderFailed, w') /\
    user_files w' = user_files example_world /\
    tmp_dir example_world ⊆ tmp_dir w' /\
    size (tmp_dir w') = size (tmp_dir example_world) + length [lit "a"; [9%N]].
Proof.
  apply (render_pdf_render_failure (C:=example_collaborators document_250 Saved)
           [1; 0] [lit "a"; [9%N]] "out.pdf" example_world [9%N]).
  - apply perm_swap.
  - right. left.
  - reflexivity.
Defined.

